(** * Semantic-similarity synonyms: a shallow embedding of [synonyms.py]

    The Python program builds, from tokenised sentences, a table that maps
    each word to a sparse vector of co-occurrence counts, scores two sparse
    vectors by cosine similarity, picks the most similar choice for a word
    and grades a list of multiple-choice questions.

    Data are modelled as the program has them:
    - a word is a [string] (one character per Latin-1 byte, as the files are
      read with [encoding="latin1"]);
    - a sparse vector (a [dict] from word to [int]) is a [gmap string Z];
    - the descriptor table (a [dict] of [dict]s) is a
      [gmap string (gmap string Z)];
    - a Python [float] is an IEEE 754 binary64 number, [spec_float] with
      precision 53 and maximal exponent 1024, rounded to nearest even;
    - a raised exception is a value of [exn] carried by [result]. *)

From Stdlib Require Import ZArith QArith Lia SpecFloat Ascii String.
From stdpp Require Import gmap strings list fin_maps.

Set Warnings "-clear-no-such-hyp".

Local Open Scope string_scope.
Local Open Scope Z_scope.

(** ** Sparse vectors and descriptor tables *)

Abbreviation vec := (gmap string Z).
Abbreviation table := (gmap string (gmap string Z)).

(** ** Descriptor builder: [build_semantic_descriptors] *)

Module Builder.

(** [if word not in descriptors: descriptors[word] = {}] *)
Definition ensure_entry (word : string) (descriptors : table) : table :=
  match descriptors !! word with
  | Some _ => descriptors
  | None => <[word := ∅]> descriptors
  end.

(** [descriptors[word][other_word] = descriptors[word].get(other_word, 0) + 1],
    an update in place of the inner dictionary.  The entry for [word] exists
    whenever this statement runs ([ensure_entry] ran just before); [alter]
    leaves a table without that entry unchanged. *)
Definition increment (word other_word : string) (descriptors : table) : table :=
  alter (λ d, <[other_word := default 0 (d !! other_word) + 1]> d) word descriptors.

(** The body of [for other_word in unique_words]. *)
Definition inner_step (word : string) (descriptors : table) (other_word : string) : table :=
  if decide (other_word ≠ word) then increment word other_word descriptors
  else descriptors.

(** The body of [for word in unique_words]. *)
Definition outer_step (unique_words : list string) (descriptors : table) (word : string) : table :=
  foldl (inner_step word) (ensure_entry word descriptors) unique_words.

(** Both loops over [unique_words], for a given iteration order of the set. *)
Definition process_words (unique_words : list string) (descriptors : table) : table :=
  foldl (outer_step unique_words) descriptors unique_words.

(** [unique_words = set(sentence)]: the iteration order of a Python set is
    that of [elements] here; [process_words_order] shows that the order is
    immaterial. *)
Definition set_of (sentence : list string) : gset string := list_to_set sentence.

Definition process_sentence (descriptors : table) (sentence : list string) : table :=
  process_words (elements (set_of sentence)) descriptors.

Definition build_semantic_descriptors (sentences : list (list string)) : table :=
  foldl process_sentence ∅ sentences.

(** Reading [descriptors[w][v]], with [None] when either key is missing. *)
Definition cell (descriptors : table) (w v : string) : option Z :=
  descriptors !! w ≫= (.!! v).

(** The words that share a sentence: [v] is a neighbour of [w] in [sentence]
    when both occur in it and they differ. *)
Definition neighbours (sentence : list string) (w v : string) : Prop :=
  w ∈ sentence ∧ v ∈ sentence ∧ v ≠ w.

#[global] Instance neighbours_dec sentence w v : Decision (neighbours sentence w v).
Proof. unfold neighbours. apply _. Defined.

(** The number of sentences in which [w] and [v] are neighbours. *)
Definition cooccurrences (sentences : list (list string)) (w v : string) : nat :=
  length (filter (λ s, neighbours s w v) sentences).

(** [w] occurs in some sentence. *)
Definition occurs (sentences : list (list string)) (w : string) : Prop :=
  Exists (λ s, w ∈ s) sentences.

#[global] Instance occurs_dec sentences w : Decision (occurs sentences w).
Proof. unfold occurs. apply _. Defined.

(** [w] co-occurs with no other distinct word: every sentence that holds
    [w] holds nothing else. *)
Definition co_occurs_with_nothing (sentences : list (list string)) (w : string) : Prop :=
  ∀ s, s ∈ sentences → w ∈ s → ∀ v, v ∈ s → v = w.

(** What the inner loop does to the row of [w]: every other word of [ws]
    gets its count raised by one (created at one). *)
Definition bump_all (ws : list string) (w : string) (d : vec) : vec :=
  foldl (λ d v, if decide (v ≠ w) then <[v := default 0 (d !! v) + 1]> d else d) d ws.

End Builder.


(** ** Python values: exceptions, numbers and floats *)

Module Py.

(** The exceptions the program can raise.  [Raised name] stands for any
    exception raised by an injected similarity function. *)
Inductive exn :=
  | IndexError
  | OverflowError
  | ZeroDivisionError
  | Raised (name : string).

Inductive result (A : Type) :=
  | Ok (a : A)
  | Raise (e : exn).
Arguments Ok {A} a.
Arguments Raise {A} e.

#[global] Instance exn_eq_dec : EqDecision exn.
Proof. solve_decision. Defined.

#[global] Instance result_eq_dec `{EqDecision A} : EqDecision (result A).
Proof. solve_decision. Defined.

Definition bind {A B} (r : result A) (k : A → result B) : result B :=
  match r with
  | Ok a => k a
  | Raise e => Raise e
  end.

#[global] Instance result_bind : MBind result := λ A B k r, bind r k.

(** A [for] loop whose body may raise. *)
Fixpoint for_each {A S} (body : S → A → result S) (s : S) (l : list A) : result S :=
  match l with
  | [] => Ok s
  | a :: l' => s' ← body s a; for_each body s' l'
  end.

(** *** Floats: IEEE 754 binary64 *)

Definition prec : Z := 53.
Definition emax : Z := 1024.

Abbreviation float := spec_float.

Definition fmul : float → float → float := SFmul prec emax.
Definition fdiv : float → float → float := SFdiv prec emax.
Definition fsqrt : float → float := SFsqrt prec emax.

(** The literals [0.0], [-1.0] and the float [100.0] that the int [100]
    converts to. *)
Definition f_zero : float := S754_zero false.
Definition f_minus_one : float := S754_finite true 4503599627370496 (-52).
Definition f_one : float := S754_finite false 4503599627370496 (-52).
Definition f_hundred : float := S754_finite false 7036874417766400 (-46).

(** A float that is zero, positive or plus infinity, with the sign bit
    clear. *)
Definition nonneg_float (f : float) : Prop :=
  match f with
  | S754_zero false | S754_finite false _ _ | S754_infinity false => True
  | _ => False
  end.


(** A finite float has a mantissa of at most 54 bits and an exponent
    between those of the least subnormal and the greatest finite number. *)
Definition wellformed (f : float) : Prop :=
  match f with
  | S754_finite _ m e => Z.pos m ≤ 2 ^ 53 ∧ -1074 ≤ e ≤ 971
  | _ => True
  end.

(** The float that rounding assembles from a mantissa and an exponent. *)
Definition assemble (mr er : Z) : float :=
  match mr with
  | Z0 => S754_zero false
  | Zpos p => if er <=? emax - prec then S754_finite false p er else S754_infinity false
  | Zneg _ => S754_nan
  end.

(** A shift record has lost a non-zero bit. *)
Definition inexact (mrs : shr_record) : bool := shr_r mrs || shr_s mrs.

(** [b] is [a] shifted right by [n] bits: the mantissa is the quotient by
    [2 ^ n], and [b] is inexact only if a non-zero bit was lost or [a] was
    inexact already. *)
Definition shifted (n : Z) (a b : shr_record) : Prop :=
  0 ≤ shr_m b ∧
  ∃ rem, shr_m a = 2 ^ n * shr_m b + rem ∧ 0 ≤ rem < 2 ^ n ∧
         (inexact b = true → rem ≠ 0 ∨ inexact a = true).


(** [float(z)] for an int [z]: rounded to nearest even; an int too large
    for a float raises [OverflowError]. *)
Definition float_of_int (z : Z) : result float :=
  match binary_normalize prec emax z 0 false with
  | S754_infinity _ => Raise OverflowError
  | f => Ok f
  end.

Definition is_zero (f : float) : bool :=
  match f with
  | S754_zero _ => true
  | _ => false
  end.

(** [base ** 0.5] for an int [base >= 0]: the int is converted to a float
    and raised to the power one half, taken here as the correctly rounded
    square root. *)
Definition int_pow_half (base : Z) : result float :=
  x ← float_of_int base; Ok (fsqrt x).

(** [top / d] for an int [top] and a float [d]: the int is converted first,
    then a zero divisor raises [ZeroDivisionError]. *)
Definition int_div_float (top : Z) (d : float) : result float :=
  x ← float_of_int top;
  if is_zero d then Raise ZeroDivisionError else Ok (fdiv x d).

(** [a / b] for two ints: the correctly rounded quotient of the exact
    integers. *)
Definition int_truediv (a b : Z) : result float :=
  match b with
  | Z0 => Raise ZeroDivisionError
  | _ =>
    match a with
    | Z0 => Ok (S754_zero (Z.ltb b 0))
    | _ =>
      match fdiv (S754_finite (Z.ltb a 0) (Z.to_pos (Z.abs a)) 0)
                 (S754_finite (Z.ltb b 0) (Z.to_pos (Z.abs b)) 0) with
      | S754_infinity _ => Raise OverflowError
      | f => Ok f
      end
    end
  end.

(** *** Numbers and their comparison *)

Inductive num :=
  | PyInt (z : Z)
  | PyFloat (f : float).

(** The exact value of a number: a rational, or an infinity; [None] for a
    NaN. *)
Inductive ext :=
  | NegInf
  | Fin (q : Q)
  | PosInf.

(** [m * 2 ^ e] *)
Definition dyadic (m e : Z) : Q :=
  match e with
  | Z0 => inject_Z m
  | Zpos _ => inject_Z (m * 2 ^ e)
  | Zneg p => Qmake m (2 ^ p)
  end.

Definition float_value (f : float) : option ext :=
  match f with
  | S754_nan => None
  | S754_zero _ => Some (Fin 0%Q)
  | S754_infinity s => Some (if s then NegInf else PosInf)
  | S754_finite s m e => Some (Fin (dyadic (if s then Zneg m else Zpos m) e))
  end.

Definition value (x : num) : option ext :=
  match x with
  | PyInt z => Some (Fin (inject_Z z))
  | PyFloat f => float_value f
  end.

Definition ext_compare (a b : ext) : comparison :=
  match a, b with
  | NegInf, NegInf => Eq
  | NegInf, _ => Lt
  | _, NegInf => Gt
  | PosInf, PosInf => Eq
  | PosInf, _ => Gt
  | _, PosInf => Lt
  | Fin p, Fin q => Qcompare p q
  end.

(** Python compares an int and a float by their exact values; every
    comparison with a NaN is false. *)
Definition compare (x y : num) : option comparison :=
  match value x, value y with
  | Some a, Some b => Some (ext_compare a b)
  | _, _ => None
  end.

Definition gt (x y : num) : bool :=
  match compare x y with Some Gt => true | _ => false end.


Definition eq (x y : num) : bool :=
  match compare x y with Some Eq => true | _ => false end.

End Py.

Import Py.

(** ** Vector math: [cosine_similarity] *)

Module Vector.

(** [for key, value in vec.items(): base += value ** 2] *)
Definition sum_squares (v : vec) : Z :=
  map_fold (λ (_ : string) value base, base + value ^ 2) 0 v.

(** [for key1, value1 in vec1.items():
       if key1 in vec2: top += value1 * vec2[key1]] *)
Definition dot (vec1 vec2 : vec) : Z :=
  map_fold (λ key1 value1 top,
              match vec2 !! key1 with
              | Some value2 => top + value1 * value2
              | None => top
              end) 0 vec1.

Definition cosine_similarity (vec1 vec2 : vec) : result num :=
  let base1 := sum_squares vec1 in
  let base2 := sum_squares vec2 in
  let top := dot vec1 vec2 in
  if Z.eqb base1 0 || Z.eqb base2 0 then Ok (PyFloat f_minus_one)
  else
    r1 ← int_pow_half base1;
    r2 ← int_pow_half base2;
    q ← int_div_float top (fmul r1 r2);
    Ok (PyFloat q).



End Vector.

(** ** Vector math: [norm] *)

Module Norm.

Definition fadd : float → float → float := SFadd prec emax.

(** [math.sqrt(x)]: a negative argument raises [ValueError]. *)
Definition math_sqrt (x : float) : result float :=
  match x with
  | S754_finite true _ _ | S754_infinity true => Raise (Raised "ValueError")
  | _ => Ok (fsqrt x)
  end.

(** [sum_of_squares += vec[x] * vec[x]]: the product of the two ints is
    exact; it is converted to a float and added. *)
Definition norm_step (sum_of_squares : float) (item : string * Z) : result float :=
  y ← float_of_int (snd item * snd item); Ok (fadd sum_of_squares y).

(** [norm(vec)].  The float sum depends on the order in which the
    dictionary is iterated, so the vector is given by its items in that
    order. *)
Definition norm (items : list (string * Z)) : result float :=
  sum_of_squares ← for_each norm_step f_zero items; math_sqrt sum_of_squares.

End Norm.

(** ** Synonym selector: [most_similar_word] *)

Module Selector.

Abbreviation similarity_fn := (vec → vec → result num).

(** The body of the [if]/[else] that scores one choice. *)
Definition pair_similarity (word choice : string) (semantic_descriptors : table)
    (fn : similarity_fn) : result num :=
  match semantic_descriptors !! word, semantic_descriptors !! choice with
  | Some dw, Some dc => fn dw dc
  | _, _ => Ok (PyInt (-1))
  end.

(** The body of [for choice in choices]; the state is
    [(max_similarity, best_choice)]. *)
Definition step (word : string) (semantic_descriptors : table) (fn : similarity_fn)
    (st : num * string) (choice : string) : result (num * string) :=
  similarity ← pair_similarity word choice semantic_descriptors fn;
  if gt similarity (fst st) then Ok (similarity, choice) else Ok st.

Definition most_similar_word (word : string) (choices : list string)
    (semantic_descriptors : table) (fn : similarity_fn) : result string :=
  match choices with
  | [] => Raise IndexError
  | first :: _ =>
    st ← for_each (step word semantic_descriptors fn) (PyInt (-1), first) choices;
    Ok (snd st)
  end.

(** A similarity function that scores by the size of the second vector,
    negated; its scores lie below [-1]. *)
Definition negated_size : similarity_fn := λ _ v2, Ok (PyInt (- Z.of_nat (size v2))).

Definition small_table : table :=
  {[ "w" := {["x" := 1]};
     "a" := {["x" := 1; "y" := 1; "z" := 1]};
     "b" := {["x" := 1; "y" := 1]};
     "c" := {["x" := 1; "z" := 1]} ]}.

(** The table of a two-sentence corpus, used in examples. *)
Definition example_table : table :=
  Builder.build_semantic_descriptors [["i"; "am"; "sick"]; ["i"; "am"; "man"]].

(** A similarity function that raises on descriptors of size two. *)
Definition raising : similarity_fn :=
  λ v1 v2, if decide (size v2 = 2%nat) then Raise (Raised "ValueError")
           else Ok (PyInt 0).

(** The similarity function raises on no pair of descriptors of the table. *)
Definition total_on (sd : table) (fn : similarity_fn) : Prop :=
  map_Forall (λ _ dw, map_Forall (λ _ dc, ∃ s, fn dw dc = Ok s) sd) sd.

End Selector.

(** ** Evaluator: [run_similarity_test] *)

Module Evaluator.
Import Selector.

(** The characters [str.split()] treats as whitespace, among the 256 of
    Latin-1. *)
Definition is_space (c : ascii) : bool :=
  let n := N_of_ascii c in
  ((9 <=? n) && (n <=? 13) || (28 <=? n) && (n <=? 32) || (n =? 133) || (n =? 160))%N.

(** [line.strip().split()]: the maximal runs of characters that are not
    whitespace.  [cur] holds the characters of the current run, reversed. *)
Fixpoint split_from (cur : list ascii) (line : string) : list string :=
  let flush := match cur with
               | [] => []
               | _ => [string_of_list_ascii (rev cur)]
               end in
  match line with
  | EmptyString => flush
  | String c rest =>
    if is_space c then flush ++ split_from [] rest
    else split_from (c :: cur) rest
  end.

Definition split (line : string) : list string := split_from [] line.

(** The body of [for line in file]; the state is
    [(total_count, correct_count)]. *)
Definition grade (semantic_descriptors : table) (fn : similarity_fn)
    (st : Z * Z) (line : string) : result (Z * Z) :=
  let words := split line in
  if (3 <=? length words)%nat then
    let word := nth 0 words "" in
    let correct_answer := nth 1 words "" in
    let choices := drop 2 words in
    guess ← most_similar_word word choices semantic_descriptors fn;
    Ok (fst st + 1, if decide (guess = correct_answer) then snd st + 1 else snd st)
  else Ok st.

(** [lines] are the lines of the question file, in order. *)
Definition run_similarity_test (lines : list string) (semantic_descriptors : table)
    (fn : similarity_fn) : result num :=
  st ← for_each (grade semantic_descriptors fn) (0, 0) lines;
  let '(total_count, correct_count) := st in
  if Z.eqb total_count 0 then Ok (PyFloat f_zero)
  else
    q ← int_truediv correct_count total_count;
    Ok (PyFloat (fmul q f_hundred)).

(** The questions of the file: the field lists of the lines that have at
    least three fields. *)
Definition valid_questions (lines : list string) : list (list string) :=
  filter (λ words, (3 ≤ length words)%nat) (split <$> lines).

(** The selector's choice for a question equals the labelled answer. *)
Definition answered_correctly (sd : table) (fn : similarity_fn) (words : list string) : Prop :=
  most_similar_word (nth 0 words "") (drop 2 words) sd fn = Ok (nth 1 words "").

#[global] Instance answered_correctly_dec sd fn words : Decision (answered_correctly sd fn words).
Proof. unfold answered_correctly. apply _. Defined.

(** A field as [split] yields them: not empty, and free of whitespace. *)
Definition is_word (f : string) : Prop :=
  f ≠ "" ∧ Forall (λ c, is_space c = false) (list_ascii_of_string f).

(** Fields joined by single spaces. *)
Fixpoint join (fields : list string) : string :=
  match fields with
  | [] => ""
  | [f] => f
  | f :: fs => f ++ " " ++ join fs
  end.

End Evaluator.

(** ** Corpus loader: [build_semantic_descriptors_from_files] *)

Module Corpus.
Import Evaluator.

(** [str.lower()] on one Latin-1 character: the letters A-Z and the
    accented capitals U+00C0-U+00DE (but the multiplication sign U+00D7)
    move up by 32. *)
Definition lower_char (c : ascii) : ascii :=
  let n := N_of_ascii c in
  if ((65 <=? n) && (n <=? 90) || (192 <=? n) && (n <=? 222) && negb (n =? 215))%N
  then ascii_of_N (n + 32)
  else c.

Fixpoint map_chars (f : ascii → ascii) (s : string) : string :=
  match s with
  | EmptyString => EmptyString
  | String c rest => String (f c) (map_chars f rest)
  end.

Definition lower (text : string) : string := map_chars lower_char text.

(** [text.replace(old, new)] for one-character strings. *)
Definition replace_char (old new : ascii) (text : string) : string :=
  map_chars (λ c, if Ascii.eqb c old then new else c) text.

(** [text.replace("--", " ")]: the occurrences are replaced from left to
    right, without overlap. *)
Fixpoint replace_dashes (text : string) : string :=
  match text with
  | EmptyString => EmptyString
  | String c rest =>
    match rest with
    | String c' rest' =>
      if Ascii.eqb c "-" && Ascii.eqb c' "-"
      then String " " (replace_dashes rest')
      else String c (replace_dashes rest)
    | EmptyString => String c EmptyString
    end
  end.

(** [text.split(sep)] for a one-character separator: the pieces between
    the separators, empty ones included.  [cur] holds the current piece,
    reversed. *)
Fixpoint split_on_from (sep : ascii) (cur : list ascii) (text : string) : list string :=
  match text with
  | EmptyString => [string_of_list_ascii (rev cur)]
  | String c rest =>
    if Ascii.eqb c sep
    then string_of_list_ascii (rev cur) :: split_on_from sep [] rest
    else split_on_from sep (c :: cur) rest
  end.

Definition split_on (sep : ascii) (text : string) : list string :=
  split_on_from sep [] text.

(** [s.strip()]: whitespace removed at both ends. *)
Fixpoint lstrip_chars (l : list ascii) : list ascii :=
  match l with
  | [] => []
  | c :: l' => if is_space c then lstrip_chars l' else l
  end.

Definition strip (s : string) : string :=
  string_of_list_ascii
    (rev (lstrip_chars (rev (lstrip_chars (list_ascii_of_string s))))).

(** The text of one file, normalised and cut into sentences. *)
Definition sentences_of_text (text : string) : list (list string) :=
  let text := lower text in
  let text := replace_char ";" " " (replace_char ":" " " (replace_char "-" " "
                (replace_char "," " " (replace_dashes text)))) in
  let text := replace_char "?" "." (replace_char "!" "." text) in
  (λ s, split (strip s)) <$> filter (λ s, strip s ≠ "") (split_on "." text).

(** The capital letters that [lower_char] changes. *)
Definition is_upper (c : ascii) : bool :=
  let n := N_of_ascii c in
  ((65 <=? n) && (n <=? 90) || (192 <=? n) && (n <=? 222) && negb (n =? 215))%N.

(** The punctuation the loader removes. *)
Definition is_punctuation (c : ascii) : bool :=
  existsb (Ascii.eqb c) (list_ascii_of_string ".!?,-:;").

(** A character that can occur in a word of the corpus. *)
Definition word_char (c : ascii) : bool :=
  negb (is_space c) && negb (is_punctuation c) && negb (is_upper c).

(** The three character replacements that follow [replace("--", " ")],
    then those of the sentence terminators, on one character. *)
Definition normalise_char (c : ascii) : ascii :=
  let blank := λ old c, if Ascii.eqb c old then " "%char else c in
  let stop := λ old c, if Ascii.eqb c old then "."%char else c in
  stop "?"%char (stop "!"%char
    (blank ";"%char (blank ":"%char (blank "-"%char (blank ","%char c))))).

(** [texts] are the contents of the files, in the order of [filenames]. *)
Definition build_semantic_descriptors_from_files (texts : list string) : table :=
  Builder.build_semantic_descriptors (texts ≫= sentences_of_text).

(** The characters that end a sentence. *)
Definition is_terminator (t : ascii) : Prop := t = "."%char ∨ t = "!"%char ∨ t = "?"%char.

(** A word as the corpus loader produces it: not empty, and made of word
    characters. *)
Definition clean_word (w : string) : Prop :=
  w ≠ "" ∧ Forall (λ c, word_char c = true) (list_ascii_of_string w).

End Corpus.

(** * Properties *)

(** ** The descriptor builder *)

Module BuilderFacts.
Import Builder.

(** *** The inner loop *)

Lemma bump_all_lookup ws w d v :
  NoDup ws →
  bump_all ws w d !! v =
    if decide (v ∈ ws ∧ v ≠ w) then Some (default 0 (d !! v) + 1) else d !! v.
Proof.
  unfold bump_all. revert d. induction ws as [|x ws IH]; intros d Hnd; cbn [foldl].
  - destruct (decide _) as [[H _]|_]; [|done]. by apply elem_of_nil in H.
  - apply NoDup_cons in Hnd as [Hx Hnd]. rewrite IH by done.
    destruct (decide (x ≠ w)) as [Hxw|Hxw].
    + destruct (decide (v = x)) as [->|Hvx].
      * rewrite decide_False by (intros [? _]; done).
        rewrite lookup_insert_eq. rewrite decide_True; [done|].
        split; [left|done].
      * rewrite lookup_insert_ne by done.
        apply decide_ext. rewrite elem_of_cons. naive_solver.
    + assert (x = w) as -> by (destruct (decide (x = w)); [done|by destruct Hxw]).
      apply decide_ext. rewrite elem_of_cons. naive_solver.
Qed.

Lemma inner_loop_lookup_ne ws w d w' :
  w' ≠ w → foldl (inner_step w) d ws !! w' = d !! w'.
Proof.
  intros Hne. revert d. induction ws as [|x ws IH]; intros d; cbn [foldl]; [done|].
  rewrite IH. unfold inner_step, increment. case_decide; [|done].
  by rewrite lookup_alter_ne.
Qed.

Lemma inner_loop_lookup ws w d :
  foldl (inner_step w) d ws !! w = bump_all ws w <$> d !! w.
Proof.
  unfold bump_all. revert d. induction ws as [|x ws IH]; intros d; cbn [foldl].
  - by destruct (d !! w).
  - rewrite IH. unfold inner_step, increment. case_decide.
    + rewrite lookup_alter_eq. by destruct (d !! w).
    + done.
Qed.

Lemma outer_step_lookup ws d w w' :
  outer_step ws d w !! w' =
    if decide (w' = w) then Some (bump_all ws w (default ∅ (d !! w))) else d !! w'.
Proof.
  unfold outer_step. case_decide as H.
  - subst w'. rewrite inner_loop_lookup. unfold ensure_entry.
    destruct (d !! w) as [m|] eqn:E; simpl.
    + by rewrite E.
    + by rewrite lookup_insert_eq.
  - rewrite inner_loop_lookup_ne by done. unfold ensure_entry.
    destruct (d !! w); [done|]. by rewrite lookup_insert_ne.
Qed.

(** *** Both loops over one set of words *)

Lemma outer_loop_lookup ws l d w :
  NoDup l →
  foldl (outer_step ws) d l !! w =
    if decide (w ∈ l) then Some (bump_all ws w (default ∅ (d !! w))) else d !! w.
Proof.
  revert d. induction l as [|x l IH]; intros d Hnd; cbn [foldl].
  - rewrite decide_False; [done|]. apply not_elem_of_nil.
  - apply NoDup_cons in Hnd as [Hx Hnd]. rewrite IH by done.
    rewrite !outer_step_lookup.
    destruct (decide (w = x)) as [->|Hne].
    + rewrite decide_False by done. rewrite decide_True; [done|left].
    + destruct (decide (w ∈ l)) as [Hin|Hin].
      * rewrite decide_True by (by right). done.
      * rewrite decide_False; [done|]. intros [?|?]%elem_of_cons; done.
Qed.

Lemma process_words_lookup ws d w :
  NoDup ws →
  process_words ws d !! w =
    if decide (w ∈ ws) then Some (bump_all ws w (default ∅ (d !! w))) else d !! w.
Proof. apply outer_loop_lookup. Qed.

(** The iteration order of the set does not matter. *)
Lemma process_words_order ws ws' d :
  NoDup ws → ws ≡ₚ ws' → process_words ws d = process_words ws' d.
Proof.
  intros Hnd Hp. assert (NoDup ws') as Hnd' by (by rewrite <- Hp).
  apply map_eq. intros w. rewrite !process_words_lookup by done.
  destruct (decide (w ∈ ws)) as [Hin|Hin].
  - rewrite decide_True by (by rewrite <- Hp). f_equal.
    apply map_eq. intros v. rewrite !bump_all_lookup by done.
    apply decide_ext. by rewrite Hp.
  - rewrite decide_False by (by rewrite <- Hp). done.
Qed.

(** *** One sentence *)

Lemma elem_of_unique_words (s : list string) w : w ∈ elements (set_of s) ↔ w ∈ s.
Proof. unfold set_of. rewrite elem_of_elements. apply elem_of_list_to_set. Qed.

Lemma cell_lookup (d : table) w v :
  cell d w v = default ∅ (d !! w) !! v.
Proof. unfold cell. by destruct (d !! w). Qed.

Lemma process_sentence_lookup d s w :
  process_sentence d s !! w =
    if decide (w ∈ s)
    then Some (bump_all (elements (set_of s)) w (default ∅ (d !! w)))
    else d !! w.
Proof.
  unfold process_sentence. rewrite process_words_lookup by apply NoDup_elements.
  apply decide_ext, elem_of_unique_words.
Qed.

Lemma process_sentence_is_Some d s w :
  is_Some (process_sentence d s !! w) ↔ is_Some (d !! w) ∨ w ∈ s.
Proof.
  rewrite process_sentence_lookup. case_decide; naive_solver.
Qed.

Lemma process_sentence_cell d s w v :
  cell (process_sentence d s) w v =
    if decide (neighbours s w v) then Some (default 0 (cell d w v) + 1)
    else cell d w v.
Proof.
  unfold cell at 1. rewrite process_sentence_lookup. unfold neighbours.
  destruct (decide (w ∈ s)) as [Hw|Hw]; simpl.
  - rewrite bump_all_lookup by apply NoDup_elements.
    rewrite <- cell_lookup. apply decide_ext.
    rewrite elem_of_unique_words. naive_solver.
  - rewrite decide_False by naive_solver. done.
Qed.

(** *** The whole corpus *)

Lemma fold_is_Some ss d w :
  is_Some (foldl process_sentence d ss !! w) ↔ is_Some (d !! w) ∨ occurs ss w.
Proof.
  unfold occurs. revert d. induction ss as [|s ss IH]; intros d; cbn [foldl].
  - rewrite Exists_nil. naive_solver.
  - rewrite IH, process_sentence_is_Some, Exists_cons. naive_solver.
Qed.

Lemma fold_cell ss d w v :
  cell (foldl process_sentence d ss) w v =
    match cooccurrences ss w v with
    | O => cell d w v
    | S _ as n => Some (default 0 (cell d w v) + Z.of_nat n)
    end.
Proof.
  unfold cooccurrences. revert d. induction ss as [|s ss IH]; intros d; cbn [foldl].
  - done.
  - rewrite IH, process_sentence_cell, filter_cons.
    destruct (decide (neighbours s w v)) as [Hn|Hn]; [|done].
    cbn [length default]. destruct (length _); cbn [default]; unfold id; f_equal; lia.
Qed.

Lemma build_is_Some ss w :
  is_Some (build_semantic_descriptors ss !! w) ↔ occurs ss w.
Proof.
  unfold build_semantic_descriptors. rewrite fold_is_Some, lookup_empty.
  split; [intros [[? [=]]|?]; done | by right].
Qed.

Lemma build_cell ss w v :
  cell (build_semantic_descriptors ss) w v =
    match cooccurrences ss w v with
    | O => None
    | S _ as n => Some (Z.of_nat n)
    end.
Proof.
  unfold build_semantic_descriptors. rewrite fold_cell.
  unfold cell at 1 2. rewrite lookup_empty. done.
Qed.

Lemma neighbours_sym s w v : neighbours s w v ↔ neighbours s v w.
Proof. unfold neighbours. naive_solver. Qed.

Lemma cooccurrences_sym ss w v : cooccurrences ss w v = cooccurrences ss v w.
Proof.
  unfold cooccurrences. induction ss as [|s ss IH]; [done|].
  rewrite !filter_cons.
  destruct (decide (neighbours s w v)) as [H|H], (decide (neighbours s v w)) as [H'|H'];
    cbn [length]; try congruence; exfalso; rewrite neighbours_sym in H; done.
Qed.

Lemma cooccurrences_perm ss ss' w v :
  ss ≡ₚ ss' → cooccurrences ss w v = cooccurrences ss' w v.
Proof. intros Hp. unfold cooccurrences. by rewrite Hp. Qed.

Lemma occurs_perm ss ss' w : ss ≡ₚ ss' → occurs ss w ↔ occurs ss' w.
Proof. intros Hp. unfold occurs. by rewrite Hp. Qed.

Lemma cell_Some (d : table) w v dw :
  d !! w = Some dw → cell d w v = dw !! v.
Proof. intros H. unfold cell. by rewrite H. Qed.

Lemma cooccurrences_nothing ss w v :
  co_occurs_with_nothing ss w → cooccurrences ss w v = 0%nat.
Proof.
  unfold co_occurs_with_nothing, cooccurrences. intros H.
  induction ss as [|s ss IH]; [done|].
  rewrite filter_cons, decide_False.
  - apply IH. intros s' Hs'. apply H. by right.
  - intros (Hw & Hv & Hne). apply Hne. apply (H s); [left|done..].
Qed.

(** The whole table, row by row: a word has a row exactly when it occurs,
    and the row holds the positive co-occurrence counts. *)
Lemma build_row ss w :
  build_semantic_descriptors ss !! w =
    if decide (occurs ss w)
    then Some (default ∅ (build_semantic_descriptors ss !! w))
    else None.
Proof.
  case_decide as H.
  - apply build_is_Some in H as [dw ->]. done.
  - apply eq_None_not_Some. by rewrite build_is_Some.
Qed.

(** **** Claims about [build_semantic_descriptors] *)

(** C1, as stated, fails: in the corpus [[["hello"]]] the word "hello"
    co-occurs with nothing, yet the table has a key for it (with the empty
    vector). *)
Lemma solo_word_is_a_key :
  co_occurs_with_nothing [["hello"]] "hello" ∧
  build_semantic_descriptors [["hello"]] !! "hello" = Some ∅.
Proof.
  split; [|by vm_compute].
  intros s Hs _ v Hv. apply list_elem_of_singleton in Hs. subst s.
  by apply list_elem_of_singleton in Hv.
Qed.

(** C1, amended: the keys of the table are exactly the words that occur in
    some sentence, and a word that occurs but co-occurs with no other
    distinct word is a key whose descriptor is the empty vector. *)
Theorem keys_are_the_words_that_occur ss w :
  (is_Some (build_semantic_descriptors ss !! w) ↔ occurs ss w) ∧
  (occurs ss w → co_occurs_with_nothing ss w →
   build_semantic_descriptors ss !! w = Some ∅).
Proof.
  split; [apply build_is_Some|].
  intros Hocc Hsolo. apply build_is_Some in Hocc as [dw Hdw].
  rewrite Hdw. f_equal. apply map_eq. intros v.
  rewrite <- (cell_Some _ _ _ _ Hdw), build_cell.
  rewrite cooccurrences_nothing by done. by rewrite lookup_empty.
Qed.

Lemma keys_are_the_words_that_occur_witness :
  occurs [["hello"]; ["a"; "b"]] "hello" ∧
  co_occurs_with_nothing [["hello"]; ["a"; "b"]] "hello" ∧
  build_semantic_descriptors [["hello"]; ["a"; "b"]] !! "hello" = Some ∅.
Proof.
  assert (occurs [["hello"]; ["a"; "b"]] "hello") as Hocc
    by (apply Exists_cons_hd; left).
  assert (co_occurs_with_nothing [["hello"]; ["a"; "b"]] "hello") as Hsolo.
  { intros s Hs Hw v Hv.
    apply elem_of_cons in Hs as [->|Hs].
    - by apply list_elem_of_singleton in Hv.
    - apply list_elem_of_singleton in Hs. subst s.
      apply elem_of_cons in Hw as [Hw|Hw]; [done|].
      by apply list_elem_of_singleton in Hw. }
  split; [done|]. split; [done|].
  apply (proj2 (keys_are_the_words_that_occur [["hello"]; ["a"; "b"]] "hello")); done.
Defined.

(** C2: the table is symmetric.  Whenever [descriptor[w]] has the key [v],
    [descriptor[v]] has the key [w] and the two counts are equal. *)
Theorem descriptors_symmetric ss w v dw n :
  build_semantic_descriptors ss !! w = Some dw →
  dw !! v = Some n →
  ∃ dv, build_semantic_descriptors ss !! v = Some dv ∧ dv !! w = Some n.
Proof.
  intros Hw Hv.
  assert (cell (build_semantic_descriptors ss) v w = Some n) as Hc.
  { rewrite build_cell, <- cooccurrences_sym, <- build_cell.
    by rewrite (cell_Some _ _ _ _ Hw). }
  unfold cell in Hc.
  destruct (build_semantic_descriptors ss !! v) as [dv|]; [|done].
  by exists dv.
Qed.

Lemma descriptors_symmetric_witness :
  ∃ dv, build_semantic_descriptors [["i"; "am"; "a"; "sick"; "man"];
                                    ["i"; "am"; "a"; "spiteful"; "man"]] !! "man"
        = Some dv ∧ dv !! "am" = Some 2.
Proof.
  apply (descriptors_symmetric _ "am" "man"
           {["i" := 2; "a" := 2; "sick" := 1; "man" := 2; "spiteful" := 1]} 2).
  - by vm_compute.
  - by vm_compute.
Defined.

(** C3: within one sentence only the set of distinct words counts, so
    duplicates are a single event; processing a sentence raises
    [descriptor[w][v]] by exactly one (from zero when absent) for every
    ordered pair of distinct words of the sentence and leaves every other
    cell alone.  On the two-sentence example the row of "am" is
    {"i":2, "a":2, "sick":1, "man":2, "spiteful":1}. *)
Theorem one_increment_per_shared_sentence :
  (∀ d s s', (∀ x, x ∈ s ↔ x ∈ s') → process_sentence d s = process_sentence d s') ∧
  (∀ d s w v, w ∈ s → v ∈ s → v ≠ w →
     cell (process_sentence d s) w v = Some (default 0 (cell d w v) + 1)) ∧
  (∀ d s w v, ¬ (w ∈ s ∧ v ∈ s ∧ v ≠ w) →
     cell (process_sentence d s) w v = cell d w v) ∧
  (∀ ss s, build_semantic_descriptors (ss ++ [s]) =
           process_sentence (build_semantic_descriptors ss) s) ∧
  build_semantic_descriptors [["i"; "am"; "a"; "sick"; "man"];
                              ["i"; "am"; "a"; "spiteful"; "man"]] !! "am"
  = Some {["i" := 2; "a" := 2; "sick" := 1; "man" := 2; "spiteful" := 1]}.
Proof.
  split; [|split; [|split; [|split]]].
  - intros d s s' H. unfold process_sentence.
    replace (set_of s') with (set_of s); [done|].
    unfold set_of. apply set_eq. intros x. rewrite !elem_of_list_to_set. apply H.
  - intros d s w v Hw Hv Hne. rewrite process_sentence_cell.
    by rewrite decide_True.
  - intros d s w v H. rewrite process_sentence_cell. by rewrite decide_False.
  - intros ss s. unfold build_semantic_descriptors. by rewrite foldl_app.
  - by vm_compute.
Qed.

Lemma one_increment_per_shared_sentence_witness :
  process_sentence ∅ ["a"; "b"; "a"] = process_sentence ∅ ["b"; "a"] ∧
  cell (process_sentence {["a" := {["b" := 4]}]} ["a"; "b"; "a"]) "a" "b" = Some 5 ∧
  cell (process_sentence {["a" := {["b" := 4]}]} ["c"; "b"]) "a" "b" = Some 4.
Proof.
  destruct one_increment_per_shared_sentence as (Hdup & Hinc & Hkeep & _).
  split; [|split].
  - apply Hdup. intros x. rewrite !elem_of_cons. naive_solver.
  - etrans; [apply (Hinc {["a" := {["b" := 4]}]} ["a"; "b"; "a"] "a" "b")|].
    + left.
    + right. left.
    + done.
    + by vm_compute.
  - etrans; [apply (Hkeep {["a" := {["b" := 4]}]} ["c"; "b"] "a" "b")|].
    + intros (Ha & _). apply elem_of_cons in Ha as [Ha|Ha]; [done|].
      by apply list_elem_of_singleton in Ha.
    + by vm_compute.
Defined.

(** C8: the order in which the sentences are processed does not affect
    the table: a permutation of the corpus yields the same table. *)
Theorem sentence_order_irrelevant ss ss' :
  ss ≡ₚ ss' → build_semantic_descriptors ss = build_semantic_descriptors ss'.
Proof.
  intros Hp. apply map_eq. intros w.
  rewrite (build_row ss), (build_row ss').
  destruct (decide (occurs ss w)) as [H|H].
  - rewrite decide_True by (by apply (occurs_perm ss ss')).
    f_equal. apply map_eq. intros v.
    rewrite <- !cell_lookup, !build_cell.
    by rewrite (cooccurrences_perm ss ss').
  - rewrite decide_False; [done|]. by rewrite <- (occurs_perm ss ss').
Qed.

Lemma sentence_order_irrelevant_witness :
  build_semantic_descriptors [["a"; "b"]; ["b"; "c"]] =
  build_semantic_descriptors [["b"; "c"]; ["a"; "b"]].
Proof. apply sentence_order_irrelevant. apply perm_swap. Defined.

End BuilderFacts.

(** ** Vector math *)

Module VectorFacts.
Import Vector.

(** *** Sums over a dictionary *)

Lemma sum_squares_empty : sum_squares ∅ = 0.
Proof. unfold sum_squares. by rewrite map_fold_empty. Qed.

Lemma sum_squares_insert (v : vec) k x :
  v !! k = None → sum_squares (<[k:=x]> v) = sum_squares v + x ^ 2.
Proof.
  intros H. unfold sum_squares. rewrite map_fold_insert_L; [done| |done].
  intros. lia.
Qed.

Lemma sum_squares_nonneg (v : vec) : 0 ≤ sum_squares v.
Proof.
  induction v as [|k x v Hk IH] using map_ind.
  - by rewrite sum_squares_empty.
  - rewrite sum_squares_insert by done. nia.
Qed.

Lemma sum_squares_zero (v : vec) :
  sum_squares v = 0 ↔ map_Forall (λ _ x, x = 0) v.
Proof.
  induction v as [|k x v Hk IH] using map_ind.
  - rewrite sum_squares_empty. split; [intros _; apply map_Forall_empty|done].
  - rewrite sum_squares_insert, map_Forall_insert by done.
    pose proof (sum_squares_nonneg v). rewrite <- IH. nia.
Qed.

Lemma dot_empty_l (b : vec) : dot ∅ b = 0.
Proof. unfold dot. by rewrite map_fold_empty. Qed.

Lemma dot_insert_l (a b : vec) k x :
  a !! k = None → dot (<[k:=x]> a) b = dot a b + x * default 0 (b !! k).
Proof.
  intros H. unfold dot. rewrite map_fold_insert_L; [|..|done].
  - destruct (b !! k); simpl; lia.
  - intros j1 j2 z1 z2 y _ _ _. destruct (b !! j1), (b !! j2); lia.
Qed.

Lemma dot_empty_r (a : vec) : dot a ∅ = 0.
Proof.
  induction a as [|k x a Hk IH] using map_ind.
  - apply dot_empty_l.
  - rewrite dot_insert_l, IH, lookup_empty by done. simpl. lia.
Qed.

Lemma dot_insert_r (a b : vec) k y :
  b !! k = None → dot a (<[k:=y]> b) = dot a b + default 0 (a !! k) * y.
Proof.
  intros Hb. induction a as [|j x a Hj IH] using map_ind.
  - rewrite !dot_empty_l, lookup_empty. simpl. lia.
  - rewrite !dot_insert_l, IH by done.
    destruct (decide (j = k)) as [->|Hne].
    + rewrite !lookup_insert_eq, Hb, Hj. simpl. lia.
    + rewrite !lookup_insert_ne by done. lia.
Qed.

Lemma dot_comm (a b : vec) : dot a b = dot b a.
Proof.
  induction a as [|k x a Hk IH] using map_ind.
  - by rewrite dot_empty_l, dot_empty_r.
  - rewrite dot_insert_l, dot_insert_r, IH by done. lia.
Qed.


(** *** The Cauchy-Schwarz inequality on the integers the code computes *)








End VectorFacts.

(** ** Floats *)

Module FloatFacts.

Lemma fmul_comm x y : fmul x y = fmul y x.
Proof.
  unfold fmul.
  destruct x as [sx|sx| |sx mx ex], y as [sy|sy| |sy my ey]; cbn [SFmul];
    rewrite ?(xorb_comm sy sx); try reflexivity.
  by rewrite (Pos.mul_comm my mx), (Z.add_comm ey ex).
Qed.

Lemma float_of_int_raises z e : float_of_int z = Raise e → e = OverflowError.
Proof.
  unfold float_of_int. destruct (binary_normalize _ _ _ _ _); congruence.
Qed.

Lemma int_pow_half_raises z e : int_pow_half z = Raise e → e = OverflowError.
Proof.
  unfold int_pow_half. destruct (float_of_int z) eqn:E; cbn; [congruence|].
  intros [= ->]. by apply float_of_int_raises in E.
Qed.

(** *** Shifting and rounding keep a mantissa non-negative *)

Lemma shr_1_nonneg mrs : 0 ≤ shr_m mrs → 0 ≤ shr_m (shr_1 mrs).
Proof. destruct mrs as [[|[p|p|]|[p|p|]] r s]; cbn; lia. Qed.

Lemma iter_shr_1_nonneg p mrs :
  0 ≤ shr_m mrs → 0 ≤ shr_m (SpecFloat.iter_pos shr_1 p mrs).
Proof.
  revert mrs. induction p as [p IH|p IH|]; intros mrs H; cbn [SpecFloat.iter_pos].
  - apply IH, IH. by apply shr_1_nonneg.
  - by apply IH, IH.
  - by apply shr_1_nonneg.
Qed.

Lemma shr_record_of_loc_m m l : shr_m (shr_record_of_loc m l) = m.
Proof. by destruct l as [|[]]. Qed.

Lemma shr_fexp_nonneg m e l :
  0 ≤ m → 0 ≤ shr_m (fst (shr_fexp prec emax m e l)).
Proof.
  intros H. unfold shr_fexp, shr.
  destruct (fexp prec emax (Zdigits2 m + e) - e) as [|p|p]; cbn [fst];
    rewrite ?shr_record_of_loc_m; try done.
  apply iter_shr_1_nonneg. by rewrite shr_record_of_loc_m.
Qed.

Lemma round_nearest_even_nonneg m l : 0 ≤ m → 0 ≤ round_nearest_even m l.
Proof. intros H. destruct l as [|[]]; cbn; [done| |done|lia]. destruct (Z.even m); lia. Qed.

Lemma binary_round_aux_nonneg m e l :
  0 ≤ m → nonneg_float (binary_round_aux prec emax false m e l).
Proof.
  intros H. unfold binary_round_aux.
  pose proof (shr_fexp_nonneg m e l H) as H1.
  destruct (shr_fexp prec emax m e l) as [mrs' e']. cbn [fst] in H1.
  pose proof (shr_fexp_nonneg _ e' loc_Exact
                (round_nearest_even_nonneg _ (loc_of_shr_record mrs') H1)) as H2.
  destruct (shr_fexp prec emax (round_nearest_even _ _) e' loc_Exact) as [mrs'' e''].
  cbn [fst] in H2. destruct (shr_m mrs'') as [|p|p]; cbn; [done| |lia].
  by destruct (e'' <=? emax - prec).
Qed.

Lemma fsqrt_nonneg x : nonneg_float x → nonneg_float (fsqrt x).
Proof.
  destruct x as [[]|[]| |[] m e]; cbn; try done. intros _.
  unfold fsqrt, SFsqrt.
  destruct (SFsqrt_core_binary prec emax (Z.pos m) e) as [[mz ez] lz] eqn:E.
  apply binary_round_aux_nonneg.
  unfold SFsqrt_core_binary in E.
  match type of E with context [Z.sqrtrem ?a] =>
    pose proof (Z.sqrtrem_spec a) as Hs; destruct (Z.sqrtrem a) as [q r] end.
  injection E as <- _ _.
  match type of Hs with 0 ≤ ?a → _ => destruct (Z_le_gt_dec 0 a) as [Ha|Ha] end.
  - specialize (Hs Ha). cbn in Hs. lia.
  - exfalso. revert Ha. 
    destruct (e - 2 * _) as [|p|p]; [lia| |lia].
    rewrite Z.shiftl_mul_pow2 by lia. nia.
Qed.


(** *** What a right shift and a rounding compute *)

Lemma shifted_0 a : 0 ≤ shr_m a → shifted 0 a a.
Proof. intros H. split; [done|]. exists 0. split_and!; auto; lia. Qed.

Lemma shifted_1 a : 0 ≤ shr_m a → shifted 1 a (shr_1 a).
Proof.
  destruct a as [[|[p|p|]|p] r s]; cbn; intros H; try lia; (split; [cbn; lia|]).
  - exists 0. unfold inexact. cbn. split_and!; try lia; auto.
  - exists 1. cbn. split_and!; try lia; auto.
  - exists 0. unfold inexact. cbn. split_and!; try lia; auto.
  - exists 1. cbn. split_and!; try lia; auto.
Qed.

Lemma shifted_trans n k a b c :
  0 ≤ n → 0 ≤ k → shifted n a b → shifted k b c → shifted (n + k) a c.
Proof.
  intros Hn Hk (Hb & r1 & E1 & B1 & I1) (Hc & r2 & E2 & B2 & I2).
  split; [done|]. exists (2 ^ n * r2 + r1).
  rewrite Z.pow_add_r by done.
  pose proof (Z.pow_pos_nonneg 2 n). pose proof (Z.pow_pos_nonneg 2 k).
  split_and!; try nia.
  intros Hi. destruct (I2 Hi) as [Hr2|Hib].
  - left. nia.
  - destruct (I1 Hib) as [Hr1|Hia]; [left; nia|by right].
Qed.

Lemma shifted_iter p a :
  0 ≤ shr_m a → shifted (Z.pos p) a (SpecFloat.iter_pos shr_1 p a).
Proof.
  revert a. induction p as [p IH|p IH|]; intros a H; cbn [SpecFloat.iter_pos].
  - pose proof (shifted_1 a H) as H1.
    pose proof (IH _ (proj1 H1)) as H2.
    pose proof (IH _ (proj1 H2)) as H3.
    replace (Z.pos p~1) with (1 + Z.pos p + Z.pos p) by lia.
    eapply shifted_trans; [lia|lia| |exact H3].
    eapply shifted_trans; [lia|lia|exact H1|exact H2].
  - pose proof (IH _ H) as H2.
    pose proof (IH _ (proj1 H2)) as H3.
    replace (Z.pos p~0) with (Z.pos p + Z.pos p) by lia.
    eapply shifted_trans; [lia|lia|exact H2|exact H3].
  - by apply shifted_1.
Qed.

Lemma fexp_eq x : fexp prec emax x = Z.max (x - 53) (-1074).
Proof. reflexivity. Qed.

Lemma shr_fexp_spec m e l :
  0 ≤ m →
  ∃ mrs, shr_fexp prec emax m e l = (mrs, Z.max e (fexp prec emax (Zdigits2 m + e))) ∧
         shifted (Z.max e (fexp prec emax (Zdigits2 m + e)) - e) (shr_record_of_loc m l) mrs.
Proof.
  intros H. unfold shr_fexp, shr.
  set (f := fexp prec emax (Zdigits2 m + e)).
  destruct (f - e) as [|p|p] eqn:E.
  - exists (shr_record_of_loc m l). replace (Z.max e f) with e by lia.
    rewrite Z.sub_diag. split; [done|]. apply shifted_0.
    by rewrite shr_record_of_loc_m.
  - exists (SpecFloat.iter_pos shr_1 p (shr_record_of_loc m l)).
    replace (Z.max e f) with (e + Z.pos p) by lia.
    replace (e + Z.pos p - e) with (Z.pos p) by lia.
    split; [done|]. apply shifted_iter. by rewrite shr_record_of_loc_m.
  - exists (shr_record_of_loc m l). replace (Z.max e f) with e by lia.
    rewrite Z.sub_diag. split; [done|]. apply shifted_0.
    by rewrite shr_record_of_loc_m.
Qed.

Lemma digits2_pos_spec p :
  2 ^ (Z.pos (digits2_pos p) - 1) ≤ Z.pos p < 2 ^ Z.pos (digits2_pos p).
Proof.
  induction p as [p IH|p IH|]; cbn [digits2_pos]; [| |cbn; lia].
  - rewrite Pos2Z.inj_succ. replace (Z.succ (Z.pos (digits2_pos p)) - 1)
      with (Z.succ (Z.pos (digits2_pos p) - 1)) by lia.
    rewrite !Z.pow_succ_r by lia. lia.
  - rewrite Pos2Z.inj_succ. replace (Z.succ (Z.pos (digits2_pos p)) - 1)
      with (Z.succ (Z.pos (digits2_pos p) - 1)) by lia.
    rewrite !Z.pow_succ_r by lia. lia.
Qed.

Lemma Zdigits2_nonneg m : 0 ≤ Zdigits2 m.
Proof. destruct m; cbn; lia. Qed.

Lemma Zdigits2_spec m : 0 < m → 2 ^ (Zdigits2 m - 1) ≤ m < 2 ^ Zdigits2 m.
Proof. destruct m as [|p|p]; try lia. intros _. apply digits2_pos_spec. Qed.

Lemma Zdigits2_lt m : 0 ≤ m → m < 2 ^ Zdigits2 m.
Proof.
  intros H. destruct (Z.eq_dec m 0) as [->|Hne]; [by cbn|].
  apply Zdigits2_spec. lia.
Qed.

Lemma Zdigits2_le m k : 0 ≤ k → 0 ≤ m < 2 ^ k → Zdigits2 m ≤ k.
Proof.
  intros Hk [H0 H]. destruct (Z.eq_dec m 0) as [->|Hne]; [by cbn|].
  destruct (Zdigits2_spec m) as [Hlo _]; [lia|].
  pose proof (Zdigits2_nonneg m).
  destruct (Z_le_gt_dec (Zdigits2 m) k) as [|Hgt]; [done|exfalso].
  assert (2 ^ k ≤ 2 ^ (Zdigits2 m - 1)) by (apply Z.pow_le_mono_r; lia). lia.
Qed.


Lemma shifted_div n a b : 0 ≤ n → shifted n a b → shr_m b = shr_m a / 2 ^ n.
Proof.
  intros Hn (Hb & rem & E & B & _). apply Z.div_unique with rem; [lia|].
  rewrite E. lia.
Qed.

Lemma round_nearest_even_cases m l :
  round_nearest_even m l = m ∨
  (round_nearest_even m l = m + 1 ∧ l ≠ loc_Exact).
Proof.
  destruct l as [|[]]; cbn; auto.
  destruct (Z.even m); auto.
Qed.

Lemma loc_of_shr_record_inexact mrs :
  loc_of_shr_record mrs ≠ loc_Exact → inexact mrs = true.
Proof. destruct mrs as [m [] []]; cbn; try done. Qed.

Lemma inexact_of_loc m l : inexact (shr_record_of_loc m l) = true → l ≠ loc_Exact.
Proof. destruct l as [|[]]; cbn; done. Qed.

Lemma binary_round_aux_spec m e l :
  0 ≤ m →
  let e1 := Z.max e (fexp prec emax (Zdigits2 m + e)) in
  let m1 := m / 2 ^ (e1 - e) in
  ∃ m2 mr er,
    binary_round_aux prec emax false m e l = assemble mr er ∧
    m1 ≤ m2 ≤ m1 + 1 ∧
    (m2 = m1 + 1 → l ≠ loc_Exact ∨ m mod 2 ^ (e1 - e) ≠ 0) ∧
    e1 ≤ er ≤ e1 + 1 ∧ 0 ≤ mr ∧ m2 = mr * 2 ^ (er - e1) ∧
    m1 < 2 ^ 53 ∧ -1074 ≤ e1.
Proof.
  intros Hm e1 m1. unfold binary_round_aux.
  destruct (shr_fexp_spec m e l Hm) as (mrs' & -> & Hs1). fold e1 in Hs1 |- *.
  assert (0 ≤ e1 - e) as Hn by lia.
  pose proof (shifted_div _ _ _ Hn Hs1) as Hm1.
  rewrite shr_record_of_loc_m in Hm1. fold m1 in Hm1.
  set (m2 := round_nearest_even (shr_m mrs') (loc_of_shr_record mrs')).
  assert (0 ≤ m1) as Hm1pos by (rewrite <- Hm1; apply Hs1).
  assert (m1 ≤ m2 ≤ m1 + 1 ∧ (m2 = m1 + 1 → loc_of_shr_record mrs' ≠ loc_Exact)) as [Hm2 Hup].
  { unfold m2. rewrite Hm1.
    destruct (round_nearest_even_cases m1 (loc_of_shr_record mrs')) as [->|[-> ?]];
      split; auto; lia. }
  assert (0 ≤ m2) as Hm2pos by lia.
  destruct (shr_fexp_spec m2 e1 loc_Exact Hm2pos) as (mrs'' & -> & Hs2).
  set (er := Z.max e1 (fexp prec emax (Zdigits2 m2 + e1))) in *.
  (* the first shift leaves at most 53 bits *)
  assert (m1 < 2 ^ 53) as Hm1lt.
  { pose proof (Zdigits2_lt m Hm) as Hd. pose proof (Zdigits2_nonneg m) as Hd0.
    assert (Zdigits2 m ≤ (e1 - e) + 53) as Hle.
    { unfold e1. rewrite fexp_eq. lia. }
    assert (2 ^ Zdigits2 m ≤ 2 ^ (e1 - e + 53)) as Hp by (apply Z.pow_le_mono_r; lia).
    rewrite Z.pow_add_r in Hp by lia.
    apply Z.div_lt_upper_bound; [apply Z.pow_pos_nonneg; lia|]. lia. }
  assert (-1074 ≤ e1) as He1 by (unfold e1; rewrite fexp_eq; lia).
  assert (Zdigits2 m2 ≤ 54) as Hd2 by (apply Zdigits2_le; lia).
  assert (e1 ≤ er ≤ e1 + 1) as Her by (unfold er; rewrite fexp_eq; lia).
  destruct Hs2 as (Hmr & rem & E2 & B2 & _).
  rewrite shr_record_of_loc_m in E2.
  assert (rem = 0) as ->.
  { destruct (Z.eq_dec er e1) as [Heq|Hne].
    - rewrite Heq, Z.sub_diag in B2. cbn in B2. lia.
    - assert (er - e1 = 1) as H1 by lia. rewrite H1 in *.
      assert (Zdigits2 m2 = 54) as Hd54 by (unfold er in H1; rewrite fexp_eq in H1; lia).
      assert (54 ≤ Zdigits2 m2) by lia.
      destruct (Zdigits2_spec m2) as [Hlo _].
      { destruct (Z.eq_dec m2 0) as [H0|]; [|lia]. rewrite H0 in Hd54. by cbn in Hd54. }
      rewrite Hd54 in Hlo. change (2 ^ (54 - 1)) with 9007199254740992 in Hlo.
      change (2 ^ 53) with 9007199254740992 in Hm1lt.
      change (2 ^ 1) with 2 in *. lia. }
  exists m2, (shr_m mrs''), er. split_and!; try done; try lia.
  - intros Hup'. specialize (Hup Hup').
    apply loc_of_shr_record_inexact in Hup.
    destruct Hs1 as (_ & rem1 & E1 & B1 & I1).
    rewrite shr_record_of_loc_m in E1.
    destruct (I1 Hup) as [Hrem|Hl].
    + right. rewrite E1. rewrite Z.add_comm, Z.mul_comm, Z.mod_add by lia.
      rewrite Z.mod_small by lia. done.
    + left. by apply inexact_of_loc in Hl.
Qed.


Lemma binary_round_aux_wellformed m e l :
  0 ≤ m → wellformed (binary_round_aux prec emax false m e l).
Proof.
  intros Hm.
  destruct (binary_round_aux_spec m e l Hm) as
    (m2 & mr & er & -> & Hm2 & _ & Her & Hmr & E & Hlt & He1).
  unfold assemble. destruct mr as [|p|p]; [done| |done].
  destruct (Z.leb_spec er (emax - prec)) as [Hle|]; [|done].
  unfold emax, prec in Hle. cbn. split; [|lia].
  pose proof (Z.pow_pos_nonneg 2 (er - Z.max e (fexp prec emax (Zdigits2 m + e)))
                ltac:(lia) ltac:(lia)).
  change (2 ^ 53) with 9007199254740992 in *. nia.
Qed.

Lemma float_of_int_wellformed z x :
  0 ≤ z → float_of_int z = Ok x →
  wellformed x ∧ nonneg_float x ∧ x ≠ S754_infinity false.
Proof.
  intros Hz. unfold float_of_int, binary_normalize.
  destruct z as [|p|p]; [by intros [= <-]| |lia].
  assert (wellformed (binary_round prec emax false p 0) ∧
          nonneg_float (binary_round prec emax false p 0)) as [Hw Hn].
  { unfold binary_round. destruct (shl_align _ _ _) as [mz ez].
    split; [by apply binary_round_aux_wellformed|by apply binary_round_aux_nonneg]. }
  destruct (binary_round prec emax false p 0) as [[]|[]| |[] mx ex];
    cbn in Hn; try done; by intros [= <-].
Qed.








End FloatFacts.

(** ** Numbers *)

Module NumFacts.
Import FloatFacts.



(** *** [>] is a strict weak order on the numbers that are not NaN *)

Lemma ext_compare_refl a : ext_compare a a = Eq.
Proof. destruct a; cbn; try done. by apply Qeq_alt. Qed.


Lemma ext_compare_trans a b c :
  ext_compare a b = Gt → ext_compare b c = Gt → ext_compare a c = Gt.
Proof.
  destruct a, b, c; cbn; try done.
  rewrite <- !Qgt_alt. intros H1 H2. by apply Qlt_trans with q0.
Qed.


Lemma gt_value x y :
  gt x y = true ↔ ∃ a b, value x = Some a ∧ value y = Some b ∧ ext_compare a b = Gt.
Proof.
  unfold gt, compare. destruct (value x) as [a|], (value y) as [b|].
  - destruct (ext_compare a b) eqn:E; split; try done.
    + intros (? & ? & [= <-] & [= <-] & ?). congruence.
    + intros (? & ? & [= <-] & [= <-] & ?). congruence.
    + intros _. by exists a, b.
  - split; [done|]. by intros (? & ? & _ & ? & _).
  - split; [done|]. by intros (? & ? & ? & _).
  - split; [done|]. by intros (? & ? & ? & _).
Qed.

Lemma gt_irrefl x : gt x x = false.
Proof.
  unfold gt, compare. destruct (value x) as [a|]; [|done].
  by rewrite ext_compare_refl.
Qed.

Lemma gt_trans x y z : gt x y = true → gt y z = true → gt x z = true.
Proof.
  rewrite !gt_value. intros (a & b & Ha & Hb & H1) (b' & c & Hb' & Hc & H2).
  assert (b' = b) as -> by congruence.
  exists a, c. eauto using ext_compare_trans.
Qed.


Lemma gt_asym x y : gt x y = true → gt y x = false.
Proof.
  intros H. destruct (gt y x) eqn:E; [|done].
  pose proof (gt_trans _ _ _ H E) as H'. by rewrite gt_irrefl in H'.
Qed.





(** *** Bounds read through the comparison of numbers *)



End NumFacts.

(** ** Claims about [cosine_similarity] *)

Module CosineFacts.
Import Vector VectorFacts FloatFacts NumFacts.

Lemma cosine_similarity_sentinel v1 v2 :
  sum_squares v1 = 0 ∨ sum_squares v2 = 0 →
  cosine_similarity v1 v2 = Ok (PyFloat f_minus_one).
Proof.
  intros H. unfold cosine_similarity.
  destruct H as [-> | ->]; [done|]. by rewrite orb_true_r.
Qed.

(** C4: whenever the sum of squares of either vector is exactly zero (an
    empty vector, or one whose magnitudes are all zero), [cosine_similarity]
    returns the sentinel [-1.0]: it returns a value, and raises neither
    [ZeroDivisionError] nor any other exception. *)
Theorem zero_vector_sentinel :
  (∀ v1 v2, sum_squares v1 = 0 ∨ sum_squares v2 = 0 →
     cosine_similarity v1 v2 = Ok (PyFloat f_minus_one)) ∧
  (∀ v, cosine_similarity v ∅ = Ok (PyFloat f_minus_one) ∧
        cosine_similarity ∅ v = Ok (PyFloat f_minus_one)) ∧
  (∀ v v', map_Forall (λ _ x, x = 0) v →
     cosine_similarity v v' = Ok (PyFloat f_minus_one) ∧
     cosine_similarity v' v = Ok (PyFloat f_minus_one)) ∧
  eq (PyFloat f_minus_one) (PyInt (-1)) = true.
Proof.
  split; [apply cosine_similarity_sentinel|]. split; [|split; [|by vm_compute]].
  - intros v. split; apply cosine_similarity_sentinel;
      rewrite sum_squares_empty; auto.
  - intros v v' Hv. apply sum_squares_zero in Hv.
    split; apply cosine_similarity_sentinel; auto.
Qed.

Lemma zero_vector_sentinel_witness :
  cosine_similarity {["a" := 1; "b" := 2]} {["a" := 0]} = Ok (PyFloat f_minus_one) ∧
  cosine_similarity {["a" := 0; "c" := 0]} {["a" := 3]} = Ok (PyFloat f_minus_one).
Proof.
  destruct zero_vector_sentinel as (Hsum & _ & Hzero & _). split.
  - apply Hsum. right. by vm_compute.
  - refine (proj1 (Hzero {["a" := 0; "c" := 0]} {["a" := 3]} _)). intros k x Hk.
    apply lookup_insert_Some in Hk as [[_ <-]|[_ Hk]]; [done|].
    by apply lookup_singleton_Some in Hk as [_ <-].
Defined.

(** C10: [cosine_similarity] is commutative, sentinel and raised
    exceptions included. *)
Theorem cosine_similarity_comm v1 v2 :
  cosine_similarity v1 v2 = cosine_similarity v2 v1.
Proof.
  unfold cosine_similarity. rewrite (dot_comm v2 v1), (orb_comm (_ =? _) (_ =? _)).
  destruct (_ || _); [done|].
  destruct (int_pow_half (sum_squares v1)) as [r1|e1] eqn:E1,
           (int_pow_half (sum_squares v2)) as [r2|e2] eqn:E2; cbn; try done.
  - by rewrite (fmul_comm r2 r1).
  - apply int_pow_half_raises in E1, E2. by subst.
Qed.





End CosineFacts.

(** ** Claims about [most_similar_word] *)

Module SelectorFacts.
Import Selector NumFacts.

Lemma step_scored w sd fn M b c s :
  pair_similarity w c sd fn = Ok s →
  step w sd fn (M, b) c = Ok (if gt s M then (s, c) else (M, b)).
Proof. intros H. unfold step. rewrite H. cbn. by destruct (gt s M). Qed.


Lemma unknown_pair w c sd fn :
  sd !! w = None ∨ sd !! c = None → pair_similarity w c sd fn = Ok (PyInt (-1)).
Proof.
  unfold pair_similarity. intros [-> | H]; [done|].
  rewrite H. by destruct (sd !! w).
Qed.

Lemma loop_unknown_word w sd fn cs st :
  sd !! w = None → for_each (step w sd fn) (PyInt (-1), st) cs = Ok (PyInt (-1), st).
Proof.
  intros H. induction cs as [|c cs IH]; [done|].
  cbn [for_each]. rewrite (step_scored _ _ _ _ _ _ (PyInt (-1))) by (apply unknown_pair; auto).
  by rewrite gt_irrefl.
Qed.




(** C6: when the word or the choice has no entry in the table, the pair
    scores [-1] whatever the similarity function is, even one that raises
    on every call: the function is not invoked (it is invoked, on the two
    descriptors, exactly when both entries exist).  Hence for an unknown
    word the first choice is returned, whatever the table and the function,
    and nothing is raised. *)
Theorem unknown_word_scores_minus_one :
  (∀ w c sd fn, sd !! w = None ∨ sd !! c = None →
     pair_similarity w c sd fn = Ok (PyInt (-1))) ∧
  (∀ w c sd fn dw dc, sd !! w = Some dw → sd !! c = Some dc →
     pair_similarity w c sd fn = fn dw dc) ∧
  (∀ w first rest sd fn, sd !! w = None →
     most_similar_word w (first :: rest) sd fn = Ok first).
Proof.
  split; [apply unknown_pair|]. split.
  - intros w c sd fn dw dc Hw Hc. unfold pair_similarity. by rewrite Hw, Hc.
  - intros w first rest sd fn Hw. unfold most_similar_word.
    by rewrite loop_unknown_word.
Qed.

Lemma unknown_word_scores_minus_one_witness :
  let sd := Builder.build_semantic_descriptors
              [["i"; "am"; "a"; "sick"; "man"]; ["i"; "am"; "a"; "spiteful"; "man"]] in
  pair_similarity "i" "tree" sd (λ _ _, Raise (Raised "invoked")) = Ok (PyInt (-1)) ∧
  pair_similarity "i" "am" sd (λ _ _, Raise (Raised "invoked")) = Raise (Raised "invoked") ∧
  most_similar_word "nonexistentword123" ["a"; "b"] sd Vector.cosine_similarity = Ok "a".
Proof.
  cbv zeta. destruct unknown_word_scores_minus_one as (Hpair & Hcall & Hword).
  split; [|split].
  - apply Hpair. right. by vm_compute.
  - apply Hcall with
      (dw := {["am" := 2; "a" := 2; "sick" := 1; "man" := 2; "spiteful" := 1]})
      (dc := {["i" := 2; "a" := 2; "sick" := 1; "man" := 2; "spiteful" := 1]});
      by vm_compute.
  - apply Hword. by vm_compute.
Defined.

End SelectorFacts.

(** ** Claims about [run_similarity_test] *)

Module EvaluatorFacts.
Import Selector Evaluator FloatFacts NumFacts SelectorFacts.

Lemma pair_similarity_total sd fn w c :
  total_on sd fn → ∃ s, pair_similarity w c sd fn = Ok s.
Proof.
  intros H. unfold pair_similarity.
  destruct (sd !! w) as [dw|] eqn:Hw; [|eauto].
  destruct (sd !! c) as [dc|] eqn:Hc; [|eauto].
  exact (H w dw Hw c dc Hc).
Qed.

Lemma loop_total sd fn w cs st :
  total_on sd fn → ∃ st', for_each (step w sd fn) st cs = Ok st'.
Proof.
  intros H. revert st. induction cs as [|c cs IH]; intros [M b]; [by eexists|].
  cbn [for_each]. destruct (pair_similarity_total sd fn w c H) as [s Hs].
  rewrite (step_scored _ _ _ _ _ _ _ Hs). cbn. apply IH.
Qed.

Lemma most_similar_word_total sd fn w first rest :
  total_on sd fn → ∃ c, most_similar_word w (first :: rest) sd fn = Ok c.
Proof.
  intros H. unfold most_similar_word.
  destruct (loop_total sd fn w (first :: rest) (PyInt (-1), first) H) as [st ->].
  by eexists.
Qed.

Lemma grade_spec sd fn st line :
  total_on sd fn →
  grade sd fn st line =
    Ok (if decide (3 ≤ length (split line))%nat
        then (fst st + 1,
              if decide (answered_correctly sd fn (split line)) then snd st + 1 else snd st)
        else st).
Proof.
  intros H. unfold grade.
  destruct (3 <=? length (split line))%nat eqn:E.
  - apply Nat.leb_le in E. rewrite decide_True by done.
    destruct (split line) as [|w [|a [|c cs]]]; cbn in E; try lia.
    cbn [nth drop].
    destruct (most_similar_word_total sd fn w c cs H) as [g Hg].
    destruct (decide (answered_correctly _ _ _)) as [Ha|Ha];
      unfold answered_correctly in Ha; cbn [nth drop] in Ha;
      rewrite Hg in Ha |- *; cbn.
    + injection Ha as ->. by rewrite decide_True.
    + rewrite decide_False; [done|]. congruence.
  - apply Nat.leb_gt in E. rewrite decide_False by lia. done.
Qed.

Lemma grade_loop sd fn lines t c :
  total_on sd fn →
  for_each (grade sd fn) (t, c) lines =
    Ok (t + Z.of_nat (length (valid_questions lines)),
        c + Z.of_nat (length (filter (answered_correctly sd fn) (valid_questions lines)))).
Proof.
  intros H. revert t c. induction lines as [|line lines IH]; intros t c.
  - cbn. f_equal. f_equal; lia.
  - cbn [for_each]. rewrite grade_spec by done. cbn [mbind result_bind bind].
    unfold valid_questions in *. rewrite fmap_cons, filter_cons.
    destruct (decide (3 ≤ length (split line))%nat) as [Hv|Hv].
    + cbn [fst snd]. rewrite filter_cons.
      destruct (decide (answered_correctly sd fn (split line))); rewrite IH;
        cbn [length]; f_equal; f_equal; lia.
    + by rewrite IH.
Qed.


Lemma cosine_total_on_example : total_on example_table Vector.cosine_similarity.
Proof.
  unfold total_on. apply map_Forall_to_list.
  let l := eval vm_compute in (map_to_list example_table) in
    change (map_to_list example_table) with l.
  repeat (apply Forall_cons; split; [|]); try apply Forall_nil_2.
  all: cbn [uncurry]; apply map_Forall_to_list.
  all: let l := eval vm_compute in (map_to_list example_table) in
         change (map_to_list example_table) with l.
  all: repeat (apply Forall_cons; split;
               [cbn [uncurry]; eexists; vm_compute; reflexivity|]);
       apply Forall_nil_2.
Qed.


End EvaluatorFacts.

(** * Further properties of the code *)

(** ** The descriptor builder *)

Module BuilderMore.
Import Builder BuilderFacts.

(** The whole table in closed form: [descriptor[w][v]] is the number of
    sentences that hold both [w] and [v], for distinct words, and the key
    [v] is absent from [descriptor[w]] when there is no such sentence. *)
Theorem count_is_number_of_shared_sentences ss w v :
  cell (build_semantic_descriptors ss) w v =
    if decide (cooccurrences ss w v = 0%nat) then None
    else Some (Z.of_nat (cooccurrences ss w v)).
Proof.
  rewrite build_cell. destruct (cooccurrences ss w v); [done|].
  by rewrite decide_False.
Qed.

Lemma cooccurrences_self ss w : cooccurrences ss w w = 0%nat.
Proof.
  unfold cooccurrences. induction ss as [|s ss IH]; [done|].
  rewrite filter_cons, decide_False; [done|]. by intros (_ & _ & ?).
Qed.

Lemma cooccurrences_le ss w v : (cooccurrences ss w v ≤ length ss)%nat.
Proof. unfold cooccurrences. apply length_filter. Qed.

(** A word never co-occurs with itself, and every stored count is at least
    one and at most the number of sentences. *)
Theorem counts_positive_no_self ss w dw :
  build_semantic_descriptors ss !! w = Some dw →
  dw !! w = None ∧
  ∀ v n, dw !! v = Some n → v ≠ w ∧ 1 ≤ n ≤ Z.of_nat (length ss).
Proof.
  intros Hw. split.
  - rewrite <- (cell_Some _ _ _ _ Hw), build_cell. by rewrite cooccurrences_self.
  - intros v n Hv. rewrite <- (cell_Some _ _ _ _ Hw), build_cell in Hv.
    pose proof (cooccurrences_le ss w v) as Hle.
    destruct (cooccurrences ss w v) as [|k] eqn:E; [done|].
    injection Hv as <-. split; [|lia].
    intros ->. by rewrite cooccurrences_self in E.
Qed.

Lemma counts_positive_no_self_witness :
  let dw : vec := {["i" := 2; "a" := 2; "sick" := 1; "man" := 2; "spiteful" := 1]} in
  dw !! "am" = None ∧
  ∀ v n, dw !! v = Some n → v ≠ "am" ∧ 1 ≤ n ≤ 2.
Proof.
  cbv zeta.
  apply (counts_positive_no_self
           [["i"; "am"; "a"; "sick"; "man"]; ["i"; "am"; "a"; "spiteful"; "man"]] "am").
  by vm_compute.
Defined.

Lemma cooccurrences_app ss1 ss2 w v :
  cooccurrences (ss1 ++ ss2) w v = (cooccurrences ss1 w v + cooccurrences ss2 w v)%nat.
Proof. unfold cooccurrences. by rewrite filter_app, length_app. Qed.

(** Two corpora put end to end: the keys are the union of the keys and the
    counts add up (an absent count reading as zero). *)
Theorem concatenated_corpora_add ss1 ss2 w v :
  (is_Some (build_semantic_descriptors (ss1 ++ ss2) !! w) ↔
   is_Some (build_semantic_descriptors ss1 !! w) ∨
   is_Some (build_semantic_descriptors ss2 !! w)) ∧
  default 0 (cell (build_semantic_descriptors (ss1 ++ ss2)) w v) =
    default 0 (cell (build_semantic_descriptors ss1) w v) +
    default 0 (cell (build_semantic_descriptors ss2) w v).
Proof.
  split.
  - rewrite !build_is_Some. unfold occurs. apply Exists_app.
  - rewrite !build_cell, cooccurrences_app.
    destruct (cooccurrences ss1 w v), (cooccurrences ss2 w v); cbn; lia.
Qed.

(** A sentence with no words changes nothing, wherever it stands. *)
Theorem empty_sentence_ignored ss1 ss2 :
  build_semantic_descriptors (ss1 ++ [] :: ss2) = build_semantic_descriptors (ss1 ++ ss2).
Proof.
  apply map_eq. intros w.
  rewrite (build_row (ss1 ++ [] :: ss2)), (build_row (ss1 ++ ss2)).
  assert (occurs (ss1 ++ [] :: ss2) w ↔ occurs (ss1 ++ ss2) w) as Hocc.
  { unfold occurs. rewrite !Exists_app, Exists_cons.
    pose proof (not_elem_of_nil w). naive_solver. }
  assert (∀ v, cooccurrences (ss1 ++ [] :: ss2) w v = cooccurrences (ss1 ++ ss2) w v) as Hco.
  { intros v. rewrite !cooccurrences_app.
    replace (cooccurrences ([] :: ss2) w v) with (cooccurrences ss2 w v); [done|].
    unfold cooccurrences. rewrite filter_cons, decide_False; [done|].
    intros (H & _). by apply elem_of_nil in H. }
  destruct (decide (occurs (ss1 ++ [] :: ss2) w)) as [H|H].
  - rewrite decide_True by (by apply Hocc).
    replace (default ∅ (build_semantic_descriptors (ss1 ++ [] :: ss2) !! w))
      with (default ∅ (build_semantic_descriptors (ss1 ++ ss2) !! w)); [done|].
    apply map_eq. intros v. by rewrite <- !cell_lookup, !build_cell, Hco.
  - rewrite decide_False; [done|]. by rewrite <- Hocc.
Qed.

(** Python does not fix the order in which a set is iterated; the table
    after a sentence is the same for every iteration order of its set of
    words. *)
Theorem set_iteration_order_irrelevant ws ws' d :
  NoDup ws → ws ≡ₚ ws' → process_words ws d = process_words ws' d.
Proof. apply process_words_order. Qed.

Lemma set_iteration_order_irrelevant_witness :
  process_words ["a"; "b"; "c"] {["a" := {["b" := 4]}]} =
  process_words ["c"; "a"; "b"] {["a" := {["b" := 4]}]}.
Proof.
  apply set_iteration_order_irrelevant.
  - apply (bool_decide_unpack (NoDup ["a"; "b"; "c"])). by vm_compute.
  - symmetry. apply (Permutation_cons_append ["a"; "b"] "c").
Defined.

End BuilderMore.

(** ** The selector *)

Module SelectorMore.
Import Selector NumFacts SelectorFacts.

Lemma step_keeps_or_takes w sd fn st c st' :
  step w sd fn st c = Ok st' → snd st' = snd st ∨ snd st' = c.
Proof.
  unfold step. destruct (pair_similarity w c sd fn) as [s|e]; [|done]. cbn.
  destruct (gt s (fst st)); intros [= <-]; auto.
Qed.

Lemma loop_result_in_choices w sd fn cs st st' :
  for_each (step w sd fn) st cs = Ok st' → snd st' = snd st ∨ snd st' ∈ cs.
Proof.
  revert st. induction cs as [|c cs IH]; intros st; cbn [for_each].
  - intros [= <-]. by left.
  - destruct (step w sd fn st c) as [st1|e] eqn:E; [|done]. cbn.
    intros H. apply step_keeps_or_takes in E.
    destruct (IH _ H) as [->|Hin]; [|right; by right].
    destruct E as [->| ->]; [by left|right; left].
Qed.

(** Whatever the table and the similarity function, a returned word is one
    of the choices; an empty list of choices raises [IndexError]. *)
Theorem result_is_a_choice w cs sd fn :
  (∀ c, most_similar_word w cs sd fn = Ok c → c ∈ cs) ∧
  (cs = [] → most_similar_word w cs sd fn = Raise IndexError).
Proof.
  split; [|by intros ->]. intros c. unfold most_similar_word.
  destruct cs as [|first rest]; [done|].
  destruct (for_each _ _ _) as [st|e] eqn:E; [|done]. cbn. intros [= <-].
  apply loop_result_in_choices in E as [->|?]; [left|done].
Qed.

Lemma result_is_a_choice_witness :
  "a" ∈ ["a"; "b"; "c"] ∧
  most_similar_word "w" [] small_table negated_size = Raise IndexError.
Proof.
  split.
  - apply (proj1 (result_is_a_choice "w" ["a"; "b"; "c"] small_table negated_size)).
    by vm_compute.
  - by apply (proj2 (result_is_a_choice "w" [] small_table negated_size)).
Defined.

Lemma loop_app {A S} (body : S → A → result S) s l1 l2 :
  for_each body s (l1 ++ l2) = (s' ← for_each body s l1; for_each body s' l2).
Proof.
  revert s. induction l1 as [|a l1 IH]; intros s; [done|].
  cbn [for_each app]. destruct (body s a) as [s1|e]; [|done]. cbn. apply IH.
Qed.

Lemma loop_scored w sd fn cs st :
  Forall (λ c, ∃ s, pair_similarity w c sd fn = Ok s) cs →
  ∃ st', for_each (step w sd fn) st cs = Ok st'.
Proof.
  intros H. revert st. induction H as [|c cs [s Hs] _ IH]; intros [M b]; [by eexists|].
  cbn [for_each]. rewrite (step_scored _ _ _ _ _ _ _ Hs). cbn. apply IH.
Qed.

(** An exception raised by the similarity function is not caught: the
    first choice whose scoring raises makes [most_similar_word] raise the
    same exception. *)
Theorem similarity_exception_propagates w cs1 c cs2 sd fn e :
  Forall (λ c', ∃ s, pair_similarity w c' sd fn = Ok s) cs1 →
  pair_similarity w c sd fn = Raise e →
  most_similar_word w (cs1 ++ c :: cs2) sd fn = Raise e.
Proof.
  intros H1 Hc. unfold most_similar_word.
  destruct (cs1 ++ c :: cs2)%list as [|first rest] eqn:E.
  { by destruct cs1. }
  rewrite <- E, loop_app.
  destruct (loop_scored w sd fn cs1 (PyInt (-1), first) H1) as [st ->].
  cbn [mbind result_bind bind for_each].
  assert (step w sd fn st c = Raise e) as -> by (unfold step; by rewrite Hc).
  done.
Qed.

Lemma similarity_exception_propagates_witness :
  most_similar_word "w" ["a"; "zzz"; "b"; "c"] small_table raising = Raise (Raised "ValueError").
Proof.
  apply (similarity_exception_propagates "w" ["a"; "zzz"] "b" ["c"]).
  - repeat (apply Forall_cons; split; [eexists; by vm_compute|]). apply Forall_nil_2.
  - by vm_compute.
Defined.

End SelectorMore.

(** ** The evaluator *)

Module EvaluatorMore.
Import Selector Evaluator NumFacts SelectorFacts EvaluatorFacts.

Lemma string_of_list_ascii_nil l : string_of_list_ascii l = "" → l = [].
Proof. by destruct l. Qed.

Lemma split_from_fields cur line :
  Forall (λ c, is_space c = false) cur →
  Forall is_word (split_from cur line).
Proof.
  revert cur. induction line as [|c rest IH]; intros cur Hcur; cbn [split_from].
  - destruct cur as [|a cur]; [constructor|].
    constructor; [|constructor]. split.
    + intros H%string_of_list_ascii_nil.
      apply (f_equal length) in H. rewrite length_rev in H. done.
    + rewrite list_ascii_of_string_of_list_ascii. by apply Forall_rev.
  - destruct (is_space c) eqn:E.
    + apply Forall_app. split; [|apply IH; constructor].
      destruct cur as [|a cur]; [constructor|].
      constructor; [|constructor]. split.
      * intros H%string_of_list_ascii_nil.
        apply (f_equal length) in H. rewrite length_rev in H. done.
      * rewrite list_ascii_of_string_of_list_ascii. by apply Forall_rev.
    + apply IH. by constructor.
Qed.

Lemma split_from_cons cur c rest :
  split_from cur (String c rest) =
    if is_space c
    then ((match cur with [] => [] | _ => [string_of_list_ascii (rev cur)] end)
          ++ split_from [] rest)%list
    else split_from (c :: cur) rest.
Proof. reflexivity. Qed.

Lemma split_from_word f cur rest :
  Forall (λ c, is_space c = false) (list_ascii_of_string f) →
  split_from cur (f ++ rest) = split_from (rev (list_ascii_of_string f) ++ cur)%list rest.
Proof.
  revert cur. induction f as [|c f IH]; intros cur Hf; [done|].
  cbn in Hf. apply Forall_cons in Hf as [Hc Hf].
  change (String c f ++ rest) with (String c (f ++ rest)).
  rewrite split_from_cons, Hc, IH by done.
  cbn [list_ascii_of_string rev]. by rewrite <- app_assoc.
Qed.

Lemma split_from_end cur :
  cur ≠ [] → split_from cur "" = [string_of_list_ascii (rev cur)].
Proof. by destruct cur. Qed.

Lemma rev_list_ascii f :
  string_of_list_ascii (rev (rev (list_ascii_of_string f) ++ [])%list) = f.
Proof. by rewrite app_nil_r, rev_involutive, string_of_list_ascii_of_string. Qed.

Lemma split_join fields : Forall is_word fields → split (join fields) = fields.
Proof.
  unfold split. induction 1 as [|f fs [Hne Hf] Hfs IH]; [done|].
  assert (rev (list_ascii_of_string f) ++ [] ≠ [])%list as Hcur.
  { rewrite app_nil_r. intros H. apply (f_equal length) in H.
    rewrite length_rev in H. destruct f; done. }
  destruct fs as [|g fs].
  - cbn [join].
    replace f with (f ++ "") at 1
      by (clear; induction f as [|c f IH]; [done|];
          change (String c f ++ "") with (String c (f ++ "")); by rewrite IH).
    rewrite split_from_word by done. rewrite split_from_end by done.
    by rewrite rev_list_ascii.
  - change (join (f :: g :: fs)) with (f ++ " " ++ join (g :: fs)).
    rewrite split_from_word by done.
    change (" " ++ join (g :: fs)) with (String " " (join (g :: fs))).
    rewrite split_from_cons. change (is_space " ") with true. cbn match.
    destruct (rev (list_ascii_of_string f) ++ [])%list as [|a l] eqn:E; [done|].
    rewrite <- E, rev_list_ascii, IH. done.
Qed.

(** [split] yields words: fields that are not empty and hold no
    whitespace; and a line made of words joined by single spaces is split
    into exactly those words. *)
Theorem split_fields_round_trip :
  (∀ line, Forall is_word (split line)) ∧
  (∀ fields, Forall is_word fields → split (join fields) = fields).
Proof.
  split; [|apply split_join]. intros line. apply split_from_fields. constructor.
Qed.

Lemma grade_short sd fn st line :
  ¬ (3 ≤ length (split line))%nat → grade sd fn st line = Ok st.
Proof.
  intros H. unfold grade.
  destruct (Nat.leb_spec 3 (length (split line))); [lia|done].
Qed.

(** Lines with fewer than three fields (blank lines among them) do not
    change the result, whatever the similarity function does. *)
Theorem short_lines_do_not_count lines sd fn :
  run_similarity_test lines sd fn =
  run_similarity_test (filter (λ line, (3 ≤ length (split line))%nat) lines) sd fn.
Proof.
  unfold run_similarity_test. f_equal.
  generalize (0, 0). induction lines as [|line lines IH]; intros st; [done|].
  rewrite filter_cons. destruct (decide (3 ≤ length (split line))%nat) as [H|H].
  - cbn [for_each]. destruct (grade sd fn st line); [|done]. cbn. apply IH.
  - cbn [for_each]. rewrite grade_short by done. cbn. apply IH.
Qed.

(** The result does not depend on the order of the questions. *)
Theorem question_order_irrelevant lines lines' sd fn :
  total_on sd fn → lines ≡ₚ lines' →
  run_similarity_test lines sd fn = run_similarity_test lines' sd fn.
Proof.
  intros H Hp. unfold run_similarity_test. rewrite !grade_loop by done.
  assert (valid_questions lines ≡ₚ valid_questions lines') as Hv
    by (unfold valid_questions; by rewrite Hp).
  by rewrite Hv.
Qed.

Lemma question_order_irrelevant_witness :
  run_similarity_test ["man man i man"; "x y"; "i am sick am"] example_table
    Vector.cosine_similarity =
  run_similarity_test ["x y"; "man man i man"; "i am sick am"] example_table
    Vector.cosine_similarity.
Proof.
  apply question_order_irrelevant; [exact cosine_total_on_example|apply perm_swap].
Defined.

Lemma int_truediv_same c : 0 < c → int_truediv c c = Ok f_one.
Proof.
  intros Hc. destruct c as [|c|c]; try lia.
  unfold int_truediv. change (Z.to_pos (Z.abs (Z.pos c))) with c.
  change (Z.pos c <? 0) with false.
  unfold fdiv, SFdiv, SFdiv_core_binary. cbn [xorb].
  rewrite !Z.add_0_r, !Z.sub_diag.
  change (Z.min (fexp prec emax 0) 0) with (-53). change (0 - -53) with 53.
  rewrite Z.shiftl_mul_pow2 by lia.
  pose proof (Z_div_mod (Z.pos c * 2 ^ 53) (Z.pos c) ltac:(lia)) as Hdm.
  destruct (Z.div_eucl (Z.pos c * 2 ^ 53) (Z.pos c)) as [q r].
  destruct Hdm as [Hq Hr].
  change (2 ^ 53) with 9007199254740992 in *.
  assert (q = 9007199254740992) as -> by nia.
  assert (r = 0) as -> by lia.
  replace (new_location (Z.pos c) 0) with loc_Exact
    by (unfold new_location, new_location_even, new_location_odd;
        by destruct (Z.even (Z.pos c))).
  by vm_compute.
Qed.

(** All questions answered correctly give exactly [100.0], none answered
    correctly exactly [0.0]. *)
Theorem all_or_nothing lines sd fn :
  total_on sd fn → valid_questions lines ≠ [] →
  (Forall (answered_correctly sd fn) (valid_questions lines) →
   run_similarity_test lines sd fn = Ok (PyFloat f_hundred)) ∧
  (Forall (λ q, ¬ answered_correctly sd fn q) (valid_questions lines) →
   run_similarity_test lines sd fn = Ok (PyFloat f_zero)).
Proof.
  intros H Hne. unfold run_similarity_test. rewrite grade_loop by done.
  cbn [mbind result_bind bind]. rewrite !Z.add_0_l.
  assert (0 < Z.of_nat (length (valid_questions lines))) as Hpos
    by (destruct (valid_questions lines); [done|cbn; lia]).
  destruct (Z.eqb_spec (Z.of_nat (length (valid_questions lines))) 0) as [|_]; [lia|].
  split; intros Hall.
  - replace (filter (answered_correctly sd fn) (valid_questions lines))
      with (valid_questions lines).
    + by rewrite int_truediv_same.
    + symmetry. clear -Hall. induction Hall as [|q qs Hq _ IH]; [done|].
      rewrite filter_cons, decide_True by done. by rewrite IH.
  - replace (filter (answered_correctly sd fn) (valid_questions lines)) with (@nil (list string)).
    + cbn [length Z.of_nat]. unfold int_truediv.
      destruct (Z.of_nat (length (valid_questions lines))) as [|p|p]; try lia. done.
    + symmetry. clear -Hall. induction Hall as [|q qs Hq _ IH]; [done|].
      rewrite filter_cons, decide_False by done. by rewrite IH.
Qed.

Lemma all_or_nothing_witness :
  run_similarity_test ["man man i man"; "x y"; "i sick sick man"] example_table
    Vector.cosine_similarity = Ok (PyFloat f_hundred) ∧
  run_similarity_test ["man i i man"; ""] example_table
    Vector.cosine_similarity = Ok (PyFloat f_zero).
Proof.
  split.
  - apply (all_or_nothing ["man man i man"; "x y"; "i sick sick man"] example_table _
             cosine_total_on_example); [by vm_compute|].
    apply (bool_decide_unpack (Forall _ _)). by vm_compute.
  - apply (all_or_nothing ["man i i man"; ""] example_table _
             cosine_total_on_example); [by vm_compute|].
    apply (bool_decide_unpack (Forall _ _)). by vm_compute.
Defined.

Lemma split_fields_round_trip_witness :
  split (join ["cat"; "dog"; "tree"]) = ["cat"; "dog"; "tree"].
Proof.
  apply (proj2 split_fields_round_trip).
  repeat (apply Forall_cons; split; [split; [done|]|]);
    try (apply (bool_decide_unpack (Forall _ _)); by vm_compute);
    try apply Forall_nil_2.
Defined.

End EvaluatorMore.

(** ** The corpus loader *)

Module CorpusFacts.
Import Evaluator Corpus EvaluatorMore.

Abbreviation chars := list_ascii_of_string.
Abbreviation text_of := string_of_list_ascii.

Lemma text_of_app l1 l2 : text_of (l1 ++ l2) = text_of l1 ++ text_of l2.
Proof.
  induction l1 as [|c l1 IH]; [done|].
  cbn [app string_of_list_ascii]. rewrite IH. done.
Qed.

Lemma chars_app s1 s2 : chars (s1 ++ s2) = (chars s1 ++ chars s2)%list.
Proof.
  induction s1 as [|c s1 IH]; [done|].
  change (String c s1 ++ s2) with (String c (s1 ++ s2)). cbn. by rewrite IH.
Qed.

Lemma text_of_chars s : text_of (chars s) = s.
Proof. apply string_of_list_ascii_of_string. Qed.

Lemma chars_text_of l : chars (text_of l) = l.
Proof. apply list_ascii_of_string_of_list_ascii. Qed.

(** *** Whitespace at the ends does not matter to [split] *)

Lemma split_from_spaces cur ws :
  Forall (λ c, is_space c = true) ws →
  split_from cur (text_of ws) = split_from cur "".
Proof.
  intros H. revert cur. induction H as [|c ws Hc _ IH]; intros cur; [done|].
  cbn [string_of_list_ascii]. rewrite split_from_cons, Hc, IH.
  cbn. by rewrite app_nil_r.
Qed.

Lemma split_from_trailing cur x ws :
  Forall (λ c, is_space c = true) ws →
  split_from cur (x ++ text_of ws) = split_from cur x.
Proof.
  intros H. revert cur. induction x as [|c x IH]; intros cur.
  - by apply split_from_spaces.
  - change (String c x ++ text_of ws) with (String c (x ++ text_of ws)).
    rewrite !split_from_cons, !IH. done.
Qed.

Lemma lstrip_chars_spec l :
  ∃ ws, Forall (λ c, is_space c = true) ws ∧ l = (ws ++ lstrip_chars l)%list ∧
        (∀ c l', lstrip_chars l = c :: l' → is_space c = false).
Proof.
  induction l as [|c l (ws & Hws & Hl & Hhd)].
  - exists []. split_and!; [constructor|done|done].
  - cbn [lstrip_chars]. destruct (is_space c) eqn:E.
    + exists (c :: ws). split_and!; [by constructor|cbn; congruence|done].
    + exists []. split_and!; [constructor|done|]. by intros ? ? [= <- _].
Qed.

Lemma split_leading ws x :
  Forall (λ c, is_space c = true) ws →
  split (text_of ws ++ x) = split x.
Proof.
  unfold split. induction 1 as [|c ws Hc _ IH]; [done|].
  cbn [string_of_list_ascii].
  change (String c (text_of ws) ++ x) with (String c (text_of ws ++ x)).
  rewrite split_from_cons, Hc, IH. done.
Qed.

(** Stripping a string before splitting it changes nothing. *)
Lemma split_strip s : split (strip s) = split s.
Proof.
  unfold strip.
  destruct (lstrip_chars_spec (chars s)) as (ws1 & Hws1 & E1 & _).
  destruct (lstrip_chars_spec (rev (lstrip_chars (chars s)))) as (ws2 & Hws2 & E2 & _).
  set (core := rev (lstrip_chars (rev (lstrip_chars (chars s))))) in *.
  assert (lstrip_chars (chars s) = core ++ rev ws2)%list as E3.
  { apply (f_equal (@rev ascii)) in E2. rewrite rev_involutive, rev_app_distr in E2.
    exact E2. }
  transitivity (split (text_of (ws1 ++ (core ++ rev ws2))));
    [|by rewrite <- E3, <- E1, text_of_chars].
  rewrite !text_of_app.
  rewrite split_leading by done. unfold split.
  rewrite split_from_trailing; [done|]. by apply Forall_rev.
Qed.

(** [line.strip().split()] and [s.strip().split()]: stripping a string
    before splitting it changes nothing, so both are [split]. *)
Theorem strip_before_split_is_redundant s : split (strip s) = split s.
Proof. apply split_strip. Qed.

Lemma split_nil_spaces s :
  split s = [] ↔ Forall (λ c, is_space c = true) (chars s).
Proof.
  split.
  - unfold split. assert (∀ cur, split_from cur s = [] →
      cur = [] ∧ Forall (λ c, is_space c = true) (chars s)) as H; [|intros ?%H; tauto].
    induction s as [|c s IH]; intros cur.
    + destruct cur; [by split; [|constructor]|done].
    + rewrite split_from_cons. destruct (is_space c) eqn:E.
      * intros [Hc Hs]%app_eq_nil. destruct (IH _ Hs) as [_ IH'].
        split; [by destruct cur|]. cbn. by constructor.
      * intros H%IH. by destruct H.
  - intros H. rewrite <- (text_of_chars s). unfold split.
    by rewrite split_from_spaces.
Qed.

Lemma strip_empty_spaces s :
  strip s = "" ↔ Forall (λ c, is_space c = true) (chars s).
Proof.
  rewrite <- split_nil_spaces, <- split_strip. split; [by intros ->|].
  intros H. unfold strip in *.
  destruct (lstrip_chars_spec (rev (lstrip_chars (chars s)))) as (ws2 & Hws2 & E2 & Hhd2).
  destruct (lstrip_chars_spec (chars s)) as (ws1 & Hws1 & E1 & Hhd1).
  apply split_nil_spaces in H. rewrite chars_text_of in H.
  destruct (lstrip_chars (rev (lstrip_chars (chars s)))) as [|c l] eqn:E; [done|].
  exfalso. specialize (Hhd2 c l eq_refl).
  rewrite Forall_rev_iff, rev_involutive in H || apply Forall_rev in H.
  all: try rewrite rev_involutive in H.
  apply Forall_cons in H as [Hc _]. congruence.
Qed.

(** *** The characters of the words *)

Lemma chars_map_chars f s : chars (map_chars f s) = f <$> chars s.
Proof. induction s as [|c s IH]; [done|]. cbn. by rewrite IH. Qed.

Lemma string_pair_ind (P : string → Prop) :
  P "" → (∀ c, P (String c "")) →
  (∀ c c' rest, P rest → P (String c' rest) → P (String c (String c' rest))) →
  ∀ s, P s.
Proof.
  intros H0 H1 H2 s.
  assert (P s ∧ ∀ c, P (String c s)) as [H _]; [|exact H].
  induction s as [|c' rest [IH1 IH2]]; [by split|].
  split; [apply IH2|]. intros c. apply H2; [done|apply IH2].
Qed.

Lemma replace_dashes_pair c c' rest :
  replace_dashes (String c (String c' rest)) =
    if Ascii.eqb c "-" && Ascii.eqb c' "-"
    then String " " (replace_dashes rest)
    else String c (replace_dashes (String c' rest)).
Proof. reflexivity. Qed.

Lemma replace_dashes_Forall (P : ascii → Prop) s :
  P " "%char → Forall P (chars s) → Forall P (chars (replace_dashes s)).
Proof.
  intros Hsp. induction s as [| |c c' rest IH1 IH2] using string_pair_ind; [done..|].
  intros H. pose proof H as H'. cbn in H'.
  apply Forall_cons in H' as [Hc H']. pose proof H' as H''.
  apply Forall_cons in H'' as [Hc' H''].
  rewrite replace_dashes_pair. destruct (Ascii.eqb c "-" && Ascii.eqb c' "-").
  - cbn. constructor; [done|]. by apply IH1.
  - change (chars (String c (replace_dashes (String c' rest))))
      with (c :: chars (replace_dashes (String c' rest))).
    constructor; [done|]. by apply IH2.
Qed.

Lemma split_from_Forall (P : ascii → Prop) cur s :
  Forall P cur → Forall P (chars s) →
  Forall (λ w, Forall P (chars w)) (split_from cur s).
Proof.
  revert cur. induction s as [|c s IH]; intros cur Hcur Hs.
  - destruct cur as [|a cur]; [constructor|].
    change (split_from (a :: cur) "") with [text_of (rev (a :: cur))].
    constructor; [|constructor]. rewrite chars_text_of. by apply Forall_rev.
  - cbn in Hs. apply Forall_cons in Hs as [Hc Hs].
    rewrite split_from_cons. destruct (is_space c).
    + apply Forall_app. split; [|apply IH; [constructor|done]].
      destruct cur as [|a cur]; [constructor|].
      constructor; [|constructor]. rewrite chars_text_of. by apply Forall_rev.
    + apply IH; [by constructor|done].
Qed.

Lemma split_on_from_Forall (P : ascii → Prop) sep cur s :
  Forall P cur → Forall P (chars s) → Forall (λ c, c ≠ sep) cur →
  Forall (λ p, Forall (λ c, P c ∧ c ≠ sep) (chars p)) (split_on_from sep cur s).
Proof.
  revert cur. induction s as [|c s IH]; intros cur Hcur Hs Hsep.
  - change (split_on_from sep cur "") with [text_of (rev cur)].
    constructor; [|constructor]. rewrite chars_text_of.
    apply Forall_rev. apply Forall_and. done.
  - cbn in Hs. apply Forall_cons in Hs as [Hc Hs].
    cbn [split_on_from]. destruct (Ascii.eqb_spec c sep) as [->|Hne].
    + constructor; [|apply IH; done || constructor].
      rewrite chars_text_of. apply Forall_rev. by apply Forall_and.
    + apply IH; [by constructor|done|by constructor].
Qed.

Lemma lstrip_chars_Forall (P : ascii → Prop) l :
  Forall P l → Forall P (lstrip_chars l).
Proof.
  induction 1 as [|c l Hc Hl IH]; [constructor|].
  cbn. destruct (is_space c); [done|by constructor].
Qed.

Lemma strip_Forall (P : ascii → Prop) s :
  Forall P (chars s) → Forall P (chars (strip s)).
Proof.
  intros H. unfold strip. rewrite chars_text_of.
  apply Forall_rev, lstrip_chars_Forall, Forall_rev, lstrip_chars_Forall, H.
Qed.

Lemma lower_char_not_upper c : is_upper (lower_char c) = false.
Proof. by destruct c as [[] [] [] [] [] [] [] []]. Qed.

Lemma normalise_char_clean c :
  is_upper c = false →
  is_upper (normalise_char c) = false ∧
  (is_punctuation (normalise_char c) = true → normalise_char c = "."%char).
Proof. by destruct c as [[] [] [] [] [] [] [] []]. Qed.

Lemma normalise_text s :
  replace_char "?" "." (replace_char "!" "." (replace_char ";" " " (replace_char ":" " "
    (replace_char "-" " " (replace_char "," " " s))))) = map_chars normalise_char s.
Proof.
  unfold replace_char. induction s as [|c s IH]; [done|].
  cbn [map_chars]. by rewrite IH.
Qed.

Lemma sentence_words_clean text sentence :
  sentence ∈ sentences_of_text text →
  sentence ≠ [] ∧
  Forall (λ w, w ≠ "" ∧ Forall (λ c, word_char c = true) (chars w)) sentence.
Proof.
  unfold sentences_of_text. cbv zeta. rewrite normalise_text.
  intros Hin. apply list_elem_of_fmap in Hin as (piece & -> & Hin).
  apply list_elem_of_filter in Hin as [Hne Hin].
  split.
  - intros H. rewrite split_strip in H.
    apply split_nil_spaces, strip_empty_spaces in H. done.
  - set (P := λ c, is_upper c = false ∧ (is_punctuation c = true → c = "."%char)).
    assert (Forall (λ c, P c ∧ c ≠ "."%char) (chars piece)) as Hpiece.
    { assert (Forall (λ p, Forall (λ c, P c ∧ c ≠ "."%char) (chars p))
                (split_on "." (map_chars normalise_char (replace_dashes (lower text)))))
        as Hall; [|by apply (proj1 (Forall_forall _ _) Hall)].
      apply (split_on_from_Forall P); [constructor| |constructor].
      rewrite chars_map_chars. apply Forall_fmap.
      eapply Forall_impl;
        [apply (replace_dashes_Forall (λ c, is_upper c = false)); [done|]
        |intros c Hc; by apply normalise_char_clean].
      unfold lower. rewrite chars_map_chars. apply Forall_fmap, Forall_forall.
      intros c _. apply lower_char_not_upper. }
    apply (strip_Forall _ _) in Hpiece.
    pose proof (split_from_Forall _ [] (strip piece) (Forall_nil_2 _) Hpiece) as Hw.
    pose proof (split_from_fields [] (strip piece) (Forall_nil_2 _)) as Hf.
    fold (split (strip piece)) in Hw, Hf.
    apply Forall_forall. intros w Hwin.
    rewrite Forall_forall in Hw, Hf.
    destruct (Hf w Hwin) as [Hwne Hsp]. split; [done|].
    specialize (Hw w Hwin). rewrite Forall_forall in Hw, Hsp. apply Forall_forall.
    intros c Hc. destruct (Hw c Hc) as [[Hup Hp] Hdot]. specialize (Hsp c Hc).
    unfold word_char. rewrite Hsp, Hup.
    destruct (is_punctuation c); [by specialize (Hp eq_refl)|done].
Qed.

(** Every sentence of a text has at least one word, and every word is not
    empty and made of characters that are neither whitespace, nor one of
    [. ! ? , - : ;], nor capital letters. *)
Theorem sentences_are_clean text sentence :
  sentence ∈ sentences_of_text text →
  sentence ≠ [] ∧
  Forall (λ w, w ≠ "" ∧ Forall (λ c, word_char c = true) (chars w)) sentence.
Proof. apply sentence_words_clean. Qed.

(** *** Sentence ends *)

Lemma map_chars_app f a b : map_chars f (a ++ b) = map_chars f a ++ map_chars f b.
Proof.
  induction a as [|c a IH]; [done|].
  change (String c a ++ b) with (String c (a ++ b)). cbn [map_chars].
  rewrite IH. done.
Qed.

Lemma replace_dashes_stop t b :
  t ≠ "-"%char → replace_dashes (String t b) = String t (replace_dashes b).
Proof.
  intros Ht. destruct b as [|c' rest]; [done|].
  rewrite replace_dashes_pair.
  destruct (Ascii.eqb_spec t "-"); [done|]. done.
Qed.

Lemma replace_dashes_app a t b :
  t ≠ "-"%char →
  replace_dashes (a ++ String t b) = replace_dashes a ++ String t (replace_dashes b).
Proof.
  intros Ht. induction a as [|c|c c' rest IH1 IH2] using string_pair_ind.
  - by apply replace_dashes_stop.
  - change (String c "" ++ String t b) with (String c (String t b)).
    rewrite replace_dashes_pair.
    destruct (Ascii.eqb_spec t "-"); [done|]. rewrite andb_false_r.
    by rewrite replace_dashes_stop.
  - change (String c (String c' rest) ++ String t b)
      with (String c (String c' (rest ++ String t b))).
    rewrite !replace_dashes_pair.
    destruct (Ascii.eqb c "-" && Ascii.eqb c' "-").
    + by rewrite IH1.
    + change (String c' (rest ++ String t b)) with (String c' rest ++ String t b).
      by rewrite IH2.
Qed.

Lemma split_on_from_app sep cur x y :
  split_on_from sep cur (x ++ String sep y) =
  (split_on_from sep cur x ++ split_on_from sep [] y)%list.
Proof.
  revert cur. induction x as [|c x IH]; intros cur.
  - cbn [split_on_from]. change ("" ++ String sep y) with (String sep y).
    cbn [split_on_from]. by rewrite Ascii.eqb_refl.
  - change (String c x ++ String sep y) with (String c (x ++ String sep y)).
    cbn [split_on_from]. destruct (Ascii.eqb c sep); by rewrite IH.
Qed.

Lemma sentences_of_text_app a t b :
  is_terminator t →
  sentences_of_text (a ++ String t b) = (sentences_of_text a ++ sentences_of_text b)%list.
Proof.
  intros Ht. unfold sentences_of_text. cbv zeta. rewrite !normalise_text.
  assert (t ≠ "-"%char ∧ lower_char t = t ∧ normalise_char t = "."%char) as (Hd & Hl & Hn)
    by (destruct Ht as [->|[->| ->]]; done).
  unfold lower. rewrite map_chars_app. cbn [map_chars]. rewrite Hl.
  rewrite replace_dashes_app by done. rewrite map_chars_app. cbn [map_chars]. rewrite Hn.
  unfold split_on. rewrite split_on_from_app, filter_app, fmap_app. done.
Qed.

(** A text is cut at each of [. ! ?]: the sentences of a text with such a
    character in it are those of the part before, followed by those of
    the part after; no sentence spans it. *)
Theorem sentences_cut_at_terminators a t b :
  is_terminator t →
  sentences_of_text (a ++ String t b) = (sentences_of_text a ++ sentences_of_text b)%list.
Proof. apply sentences_of_text_app. Qed.

Lemma sentences_are_clean_witness :
  ["well"; "known"] ≠ [] ∧
  Forall (λ w, w ≠ "" ∧ Forall (λ c, word_char c = true) (chars w)) ["well"; "known"].
Proof.
  apply (sentences_are_clean "Yes! Well--known; ").
  replace (sentences_of_text "Yes! Well--known; ") with [["yes"]; ["well"; "known"]]
    by (by vm_compute).
  right. left.
Defined.

Lemma sentences_cut_at_terminators_witness :
  sentences_of_text ("I am sick" ++ String "!" " Am I") =
  (sentences_of_text "I am sick" ++ sentences_of_text " Am I")%list.
Proof. apply sentences_cut_at_terminators. right. by left. Defined.

(** *** Tables built from files *)

Lemma build_permutation ss ss' :
  ss ≡ₚ ss' →
  Builder.build_semantic_descriptors ss = Builder.build_semantic_descriptors ss'.
Proof.
  intros Hp. apply map_eq. intros w.
  rewrite (BuilderFacts.build_row ss), (BuilderFacts.build_row ss').
  destruct (decide (Builder.occurs ss w)) as [H|H].
  - rewrite decide_True by (by apply (BuilderFacts.occurs_perm ss ss')).
    f_equal. apply map_eq. intros v.
    rewrite <- !BuilderFacts.cell_lookup, !BuilderFacts.build_cell.
    by rewrite (BuilderFacts.cooccurrences_perm ss ss').
  - rewrite decide_False; [done|]. by rewrite <- (BuilderFacts.occurs_perm ss ss').
Qed.

(** The table does not depend on the order of the files, and cutting a
    file in two at the end of a sentence gives the same table. *)
Theorem files_order_and_cut_irrelevant :
  (∀ texts texts', texts ≡ₚ texts' →
     build_semantic_descriptors_from_files texts =
     build_semantic_descriptors_from_files texts') ∧
  (∀ texts1 a t b texts2, is_terminator t →
     build_semantic_descriptors_from_files (texts1 ++ (a ++ String t b) :: texts2) =
     build_semantic_descriptors_from_files (texts1 ++ a :: b :: texts2)).
Proof.
  split.
  - intros texts texts' Hp. unfold build_semantic_descriptors_from_files.
    apply build_permutation. by rewrite Hp.
  - intros texts1 a t b texts2 Ht. unfold build_semantic_descriptors_from_files.
    rewrite !bind_app, !bind_cons, sentences_of_text_app by done.
    by rewrite <- app_assoc.
Qed.

Lemma files_order_and_cut_irrelevant_witness :
  build_semantic_descriptors_from_files ["I am sick."; "You are not"] =
  build_semantic_descriptors_from_files ["You are not"; "I am sick."] ∧
  build_semantic_descriptors_from_files ["I am sick. You are not"] =
  build_semantic_descriptors_from_files ["I am sick"; " You are not"].
Proof.
  destruct files_order_and_cut_irrelevant as [Hperm Hcut]. split.
  - apply Hperm. apply perm_swap.
  - apply (Hcut [] "I am sick" "."%char " You are not" []). by left.
Defined.

Lemma occurs_clean texts w :
  Builder.occurs (texts ≫= sentences_of_text) w → clean_word w.
Proof.
  unfold Builder.occurs. rewrite Exists_exists.
  intros (s & Hs & Hw). apply list_elem_of_bind in Hs as (text & Hs & _).
  apply sentence_words_clean in Hs as [_ Hs].
  by apply (proj1 (Forall_forall _ _) Hs).
Qed.

(** Every key of a table built from files, and every key of every
    descriptor in it, is a clean word: not empty, in lower case, without
    whitespace and without any of [. ! ? , - : ;]. *)
Theorem table_words_are_clean texts w dw :
  build_semantic_descriptors_from_files texts !! w = Some dw →
  clean_word w ∧ ∀ v, is_Some (dw !! v) → clean_word v.
Proof.
  unfold build_semantic_descriptors_from_files. intros Hw. split.
  - apply (occurs_clean texts). apply BuilderFacts.build_is_Some. by rewrite Hw.
  - intros v [n Hv]. apply (occurs_clean texts).
    rewrite <- (BuilderFacts.cell_Some _ _ _ _ Hw), BuilderFacts.build_cell in Hv.
    unfold Builder.cooccurrences in Hv.
    destruct (filter _ _) as [|s l] eqn:E; [done|].
    assert (s ∈ filter (λ s, Builder.neighbours s w v) (texts ≫= sentences_of_text)) as Hs
      by (rewrite E; left).
    apply list_elem_of_filter in Hs as [(_ & Hvs & _) Hs].
    apply Exists_exists. eauto.
Qed.

Lemma table_words_are_clean_witness :
  clean_word "am" ∧ ∀ v, is_Some (({["i" := 1; "sick" := 1]} : vec) !! v) → clean_word v.
Proof.
  apply (table_words_are_clean ["I am -- sick!"] "am"). by vm_compute.
Defined.

End CorpusFacts.

(** ** Vector math *)

Module CosineMore.
Import Vector VectorFacts FloatFacts NumFacts CosineFacts.














End CosineMore.

Module NormFacts.
Import Norm FloatFacts.

Lemma fadd_nonneg x y : nonneg_float x → nonneg_float y → nonneg_float (fadd x y).
Proof.
  destruct x as [[]|[]| |[] mx ex], y as [[]|[]| |[] my ey]; cbn; try done.
  intros _ _. unfold binary_normalize.
  destruct (shl_align mx ex (Z.min ex ey)) as [mx' ex'].
  destruct (shl_align my ey (Z.min ex ey)) as [my' ey']. cbn [fst cond_Zopp].
  change (Z.pos mx' + Z.pos my') with (Z.pos (mx' + my')).
  unfold binary_round. destruct (shl_align _ _ _) as [mz ez].
  by apply binary_round_aux_nonneg.
Qed.

Lemma norm_loop_nonneg items s :
  nonneg_float s →
  (∃ s', for_each norm_step s items = Ok s' ∧ nonneg_float s') ∨
  for_each norm_step s items = Raise OverflowError.
Proof.
  revert s. induction items as [|[k x] items IH]; intros s Hs.
  - left. by exists s.
  - cbn [for_each].
    destruct (float_of_int (x * x)) as [y|e] eqn:E.
    + assert (norm_step s (k, x) = Ok (fadd s y)) as ->
        by (unfold norm_step; cbn [snd]; by rewrite E).
      cbn. apply IH. apply fadd_nonneg; [done|].
      apply (float_of_int_wellformed (x * x)); [nia|done].
    + assert (norm_step s (k, x) = Raise e) as ->
        by (unfold norm_step; cbn [snd]; by rewrite E).
      right. cbn. f_equal. by apply float_of_int_raises in E.
Qed.

(** [norm] never takes the square root of a negative number: it returns a
    float that is zero, positive or infinite (never a NaN), or raises
    [OverflowError] for a square too large for a float; the norm of the
    empty vector is [0.0]. *)
Theorem norm_is_nonnegative items :
  ((∃ r, norm items = Ok r ∧ nonneg_float r) ∨ norm items = Raise OverflowError) ∧
  (items = [] → norm items = Ok f_zero).
Proof.
  split; [|by intros ->]. unfold norm.
  destruct (norm_loop_nonneg items f_zero I) as [(s & -> & Hs)| ->]; [|by right].
  left. cbn [mbind result_bind bind]. exists (fsqrt s). split; [|by apply fsqrt_nonneg].
  by destruct s as [[]|[]| |[] m e].
Qed.

Lemma norm_is_nonnegative_witness :
  norm [] = Ok f_zero ∧
  norm [("a", 3); ("b", -4)] = Ok (S754_finite false 5629499534213120 (-50)).
Proof.
  split; [by apply (proj2 (norm_is_nonnegative []))|].
  destruct (proj1 (norm_is_nonnegative [("a", 3); ("b", -4)])) as [(r & Hr & _)|Hr];
    rewrite Hr; revert Hr; vm_compute; congruence.
Defined.

End NormFacts.

(** ** The parts together *)

Module PipelineFacts.
Import Builder BuilderFacts Vector VectorFacts Selector NumFacts SelectorFacts
       Evaluator EvaluatorFacts EvaluatorMore CosineFacts.

Lemma solo_row_empty ss w :
  occurs ss w → co_occurs_with_nothing ss w →
  build_semantic_descriptors ss !! w = Some ∅.
Proof.
  intros Hocc Hsolo. apply build_is_Some in Hocc as [dw Hdw].
  rewrite Hdw. f_equal. apply map_eq. intros v.
  rewrite <- (cell_Some _ _ _ _ Hdw), build_cell.
  rewrite cooccurrences_nothing by done. by rewrite lookup_empty.
Qed.

Lemma loop_never_above w sd fn cs st :
  (∀ c, c ∈ cs → ∃ s, pair_similarity w c sd fn = Ok s ∧ gt s (fst st) = false) →
  for_each (step w sd fn) st cs = Ok st.
Proof.
  revert st. induction cs as [|c cs IH]; intros [M b] H; [done|].
  destruct (H c ltac:(left)) as (s & Hs & Hgt).
  cbn [for_each]. rewrite (step_scored _ _ _ _ _ _ _ Hs). cbn [fst] in Hgt.
  rewrite Hgt. cbn. apply IH. intros c' Hc'. apply H. by right.
Qed.

(** A word that occurs in the corpus but co-occurs with nothing has an
    empty descriptor, so every comparison degrades to the sentinel and
    the first choice is returned. *)
Theorem solo_word_gets_first_choice ss w first rest :
  occurs ss w → co_occurs_with_nothing ss w →
  most_similar_word w (first :: rest) (build_semantic_descriptors ss) cosine_similarity
  = Ok first.
Proof.
  intros Hocc Hsolo. pose proof (solo_row_empty ss w Hocc Hsolo) as Hw.
  unfold most_similar_word. rewrite loop_never_above; [done|].
  intros c _. unfold pair_similarity. rewrite Hw.
  destruct (build_semantic_descriptors ss !! c) as [dc|].
  - exists (PyFloat f_minus_one). split; [|done].
    apply cosine_similarity_sentinel. left. apply sum_squares_empty.
  - by exists (PyInt (-1)).
Qed.

Lemma solo_word_gets_first_choice_witness :
  most_similar_word "hello" ["b"; "a"]
    (build_semantic_descriptors [["hello"]; ["a"; "b"]]) cosine_similarity = Ok "b".
Proof.
  apply solo_word_gets_first_choice.
  - apply Exists_cons_hd. left.
  - intros s Hs Hw v Hv.
    apply elem_of_cons in Hs as [->|Hs].
    + by apply list_elem_of_singleton in Hv.
    + apply list_elem_of_singleton in Hs. subst s.
      apply elem_of_cons in Hw as [Hw|Hw]; [done|].
      by apply list_elem_of_singleton in Hw.
Defined.

(** A question line made of a word, an answer and at least one choice,
    joined by single spaces, is graded by asking the selector for the word
    among exactly those choices. *)
Theorem question_line_is_parsed sd fn st w a c cs :
  Forall is_word (w :: a :: c :: cs) →
  grade sd fn st (join (w :: a :: c :: cs)) =
    (guess ← most_similar_word w (c :: cs) sd fn;
     Ok (fst st + 1, if decide (guess = a) then snd st + 1 else snd st)).
Proof.
  intros H. unfold grade. rewrite split_join by done. done.
Qed.

Lemma question_line_is_parsed_witness :
  grade ∅ cosine_similarity (0, 0) "cat dog dog tree" = Ok (1, 1).
Proof.
  etrans; [apply (question_line_is_parsed ∅ cosine_similarity (0, 0) "cat" "dog" "dog" ["tree"])|].
  - repeat (apply Forall_cons; split; [split; [done|]|]);
      try (apply (bool_decide_unpack (Forall _ _)); by vm_compute);
      try apply Forall_nil_2.
  - by vm_compute.
Defined.

Lemma loop_chosen_is_known w sd fn cs M b M' b' :
  for_each (step w sd fn) (M, b) cs = Ok (M', b') →
  (M' = M ∧ b' = b) ∨
  (b' ∈ cs ∧ pair_similarity w b' sd fn = Ok M' ∧ gt M' M = true).
Proof.
  revert M b. induction cs as [|c cs IH]; intros M b; cbn [for_each].
  - intros [= <- <-]. by left.
  - destruct (pair_similarity w c sd fn) as [s|e] eqn:Hs;
      [|assert (step w sd fn (M, b) c = Raise e) as -> by (unfold step; by rewrite Hs);
        done].
    rewrite (step_scored _ _ _ _ _ _ _ Hs).
    destruct (gt s M) eqn:Hgt; cbn; intros H.
    + destruct (IH _ _ H) as [[-> ->]|(Hin & Hp & Hg)].
      * right. split_and!; [left|done|done].
      * right. split_and!; [by right|done|]. by apply gt_trans with s.
    + destruct (IH _ _ H) as [[-> ->]|(Hin & Hp & Hg)]; [by left|].
      right. split_and!; [by right|done|done].
Qed.

(** When the returned choice is not the first one, the word and that
    choice are both in the table and the score of the choice exceeds -1:
    an unknown choice can only be returned as the default. *)
Theorem later_choice_is_known_and_scores w first rest sd fn c :
  most_similar_word w (first :: rest) sd fn = Ok c → c ≠ first →
  ∃ dw dc s, sd !! w = Some dw ∧ sd !! c = Some dc ∧ fn dw dc = Ok s ∧
             gt s (PyInt (-1)) = true.
Proof.
  unfold most_similar_word. intros H Hne.
  destruct (for_each _ _ _) as [[M' b']|e] eqn:E; [|done]. cbn in H. injection H as ->.
  apply loop_chosen_is_known in E as [[_ ->]|(_ & Hp & Hg)]; [done|].
  unfold pair_similarity in Hp.
  destruct (sd !! w) as [dw|]; [|injection Hp as <-; by rewrite gt_irrefl in Hg].
  destruct (sd !! c) as [dc|]; [|injection Hp as <-; by rewrite gt_irrefl in Hg].
  eauto 10.
Qed.

Lemma later_choice_is_known_and_scores_witness :
  ∃ dw dc s, example_table !! "i" = Some dw ∧ example_table !! "am" = Some dc ∧
             cosine_similarity dw dc = Ok s ∧ gt s (PyInt (-1)) = true.
Proof.
  apply (later_choice_is_known_and_scores "i" "tree" ["am"; "zebra"]); by vm_compute.
Defined.

End PipelineFacts.
